(** * Voice agent: barge-in arbitration, segmentation and playback queue

    Shallow embedding of the Python voice agent
    (Agent-operating-the-computer-while-on-a-phone-call/agent.py,
    audio_handler.py, tts_handler.py, config.py) and of the earlier
    top-level audio_handler.py / tts_handler.py.

    External services (microphone, Silero VAD, transcription, the small
    classifier model, the large model, speech synthesis) are inputs: the
    VAD score of a chunk is given with the chunk, and a service call is a
    function returning [None] when the call raises. *)

From Stdlib Require Import String Ascii List Bool Arith NArith Lia.
Import ListNotations.

Definition bytes := list Byte.byte.

(** ** config.py *)
Module Config.
Local Open Scope N_scope.
Definition VAD_SAMPLING_RATE : N := 16000.
Definition VAD_FRAME_MS : N := 32.
Definition VAD_MIN_SPEECH_DURATION_MS : N := 250.
Definition VAD_MAX_SILENCE_DURATION_MS : N := 800.
Definition AUDIO_SAMPLING_RATE : N := 16000.
(** [int(VAD_SAMPLING_RATE * (VAD_FRAME_MS / 1000.0))] *)
Definition AUDIO_CHUNK_SIZE : N := VAD_SAMPLING_RATE * VAD_FRAME_MS / 1000.
(** [int(VAD_MIN_SPEECH_DURATION_MS / 1000 * AUDIO_SAMPLING_RATE)] *)
Definition min_speech_duration_samples : N :=
  VAD_MIN_SPEECH_DURATION_MS * AUDIO_SAMPLING_RATE / 1000.
(** top-level audio_handler.py:
    [int(VAD_MAX_SILENCE_DURATION_MS / 1000 * VAD_SAMPLING_RATE)] *)
Definition max_silence_samples : N :=
  VAD_MAX_SILENCE_DURATION_MS * VAD_SAMPLING_RATE / 1000.
(** bytes of one chunk read by [stream.read(AUDIO_CHUNK_SIZE)], paInt16 mono *)
Definition CHUNK_BYTES : N := AUDIO_CHUNK_SIZE * 2.
End Config.

(** ** Python string helpers used by the code *)
Module PyStr.
(** The characters [str.strip()] removes ([str.isspace]), on the UTF-8
    bytes of the string.  One byte: [\t\n\v\f\r], [\x1c]-[\x1f] and
    the space. *)
Definition ws1 (a : ascii) : bool :=
  let n := nat_of_ascii a in
  ((Nat.leb 9 n && Nat.leb n 13) || (Nat.leb 28 n && Nat.leb n 32))%bool.

(** Two bytes: U+0085, U+00A0. *)
Definition ws2 (a b : ascii) : bool :=
  (Nat.eqb (nat_of_ascii a) 194 &&
   (Nat.eqb (nat_of_ascii b) 133 || Nat.eqb (nat_of_ascii b) 160))%bool.

(** Three bytes: U+1680, U+2000-U+200A, U+2028, U+2029, U+202F, U+205F,
    U+3000. *)
Definition ws3 (a b c : ascii) : bool :=
  let x := nat_of_ascii a in
  let y := nat_of_ascii b in
  let z := nat_of_ascii c in
  (Nat.eqb x 225 && Nat.eqb y 154 && Nat.eqb z 128 ||
   Nat.eqb x 226 && Nat.eqb y 128 &&
     (Nat.leb 128 z && Nat.leb z 138 || Nat.eqb z 168 || Nat.eqb z 169 ||
      Nat.eqb z 175) ||
   Nat.eqb x 226 && Nat.eqb y 129 && Nat.eqb z 159 ||
   Nat.eqb x 227 && Nat.eqb y 128 && Nat.eqb z 128)%bool.

Section Drop.
Variable p1 : ascii -> bool.
Variable p2 : ascii -> ascii -> bool.
Variable p3 : ascii -> ascii -> ascii -> bool.

(** drop the leading characters recognised by [p1], [p2], [p3] (one, two
    and three bytes) *)
Fixpoint drop_lead (l : list ascii) : list ascii :=
  match l with
  | [] => []
  | a :: t =>
      if p1 a then drop_lead t
      else match t with
           | [] => l
           | b :: t2 =>
               if p2 a b then drop_lead t2
               else match t2 with
                    | [] => l
                    | c :: t3 => if p3 a b c then drop_lead t3 else l
                    end
           end
  end.
End Drop.

(** leading whitespace of the bytes *)
Definition lstrip_bytes (l : list ascii) : list ascii := drop_lead ws1 ws2 ws3 l.

(** leading whitespace of the reversed bytes: trailing whitespace of the
    string, last byte first *)
Definition rstrip_rev (l : list ascii) : list ascii :=
  drop_lead ws1 (fun a b => ws2 b a) (fun a b c => ws3 c b a) l.

(** [str.strip()] *)
Definition strip (s : string) : string :=
  string_of_list_ascii
    (rev (rstrip_rev (rev (lstrip_bytes (list_ascii_of_string s))))).

(** [str.lower()] on ASCII letters.  Of the other characters only the
    Kelvin sign lowers to ASCII (to [k]), so a comparison of the result
    with a word without [k] is decided as in Python. *)
Definition lower_char (c : ascii) : ascii :=
  let n := nat_of_ascii c in
  if (65 <=? n) && (n <=? 90) then ascii_of_nat (n + 32) else c.

Definition lower (s : string) : string :=
  string_of_list_ascii (map lower_char (list_ascii_of_string s)).

(** [needle in hay] *)
Fixpoint contains (needle hay : string) : bool :=
  (String.prefix needle hay ||
   match hay with
   | EmptyString => false
   | String _ t => contains needle t
   end)%bool.
End PyStr.

(** ** agent.py: fast path and arbiter *)
Module Agent.
Import PyStr.

(** Effect of the fast path on [self.interrupt_event]. *)
Inductive flag_op := FlagSet | FlagClear | FlagKeep.

Definition apply_flag (op : flag_op) (b : bool) : bool :=
  match op with FlagSet => true | FlagClear => false | FlagKeep => b end.

(** [VoiceAgent._fast_decision_thread]: [audio_snapshot] is
    [b''.join(list(self.audio_handler.speech_buffer))] after the sleep;
    [transcribe] is [self._transcribe] and [classify text] the raw
    [response.choices[0].message.content] of the small model on
    [INTERRUPT_PROMPT.format(text=text)]; [None] is a raised exception,
    which lands in [except Exception].  The result is the decision put
    on [decision_queue] in [finally], and the flag effect. *)
Definition fast_decision (audio_snapshot : bytes)
    (transcribe : bytes -> option string)
    (classify : string -> option string) : string * flag_op :=
  if length audio_snapshot <? 2048 then ("ignore"%string, FlagKeep)
  else
    match transcribe audio_snapshot with
    | None => ("process"%string, FlagSet)
    | Some text =>
        if String.eqb (strip text) "" then ("ignore"%string, FlagKeep)
        else
          match classify text with
          | None => ("process"%string, FlagSet)
          | Some content =>
              let model_decision := lower (strip content) in
              if String.eqb model_decision "interrupt"
              then ("process"%string, FlagSet)
              else ("ignore"%string, FlagClear)
          end
    end.

(** State shared with the arbiter: [decision_queue] ([Queue(maxsize=1)])
    and [user_speech_queue].  Each queued decision carries a ghost tag,
    the utterance whose fast path produced it; the code stores only the
    string. *)
Record chan_state := mkChan {
  decision_queue : list (nat * string);
  user_speech_queue : list bytes
}.

Definition DECISION_MAXSIZE := 1.

(** [self.decision_queue.put(decision)]: a blocking put; [None] when the
    queue is full (the thread waits). *)
Definition fast_put (tag : nat) (d : string) (st : chan_state)
    : option chan_state :=
  if length (decision_queue st) <? DECISION_MAXSIZE
  then Some (mkChan (decision_queue st ++ [(tag, d)]) (user_speech_queue st))
  else None.

Inductive arbiter_outcome :=
  | Consumed (tag : nat) (d : string)
  | TimedOut.

(** [VoiceAgent.on_speech_end]: [get(timeout=10.0)] returns the head of
    the queue if a decision is there by the end of the wait (a put during
    the wait is a [fast_put] scheduled before this step), otherwise
    [queue.Empty]; [finally] drains the queue. *)
Definition on_speech_end (audio_data : bytes) (st : chan_state)
    : chan_state * arbiter_outcome :=
  match decision_queue st with
  | (tag, decision) :: _ =>
      let usq := if String.eqb decision "process"
                 then user_speech_queue st ++ [audio_data]
                 else user_speech_queue st in
      (mkChan [] usq, Consumed tag decision)
  | [] =>
      (mkChan [] (user_speech_queue st ++ [audio_data]), TimedOut)
  end.

(** An interleaving of the fast-path threads' puts and the arbiter
    threads' steps. *)
Inductive event :=
  | FastPut (utterance : nat) (d : string)
  | SpeechEnd (utterance : nat) (audio : bytes).

(** Runs an interleaving; [None] if it schedules a put on a full queue.
    Records each arbiter's outcome. *)
Fixpoint run (evs : list event) (st : chan_state)
    : option (chan_state * list (nat * arbiter_outcome)) :=
  match evs with
  | [] => Some (st, [])
  | FastPut u d :: rest =>
      match fast_put u d st with
      | Some st' => run rest st'
      | None => None
      end
  | SpeechEnd u a :: rest =>
      let '(st', o) := on_speech_end a st in
      match run rest st' with
      | Some (st'', os) => Some (st'', (u, o) :: os)
      | None => None
      end
  end.
End Agent.

(** ** collections.deque(maxlen=...).append *)
Definition deque_append {A} (maxlen : nat) (l : list A) (x : A) : list A :=
  let l' := l ++ [x] in
  if maxlen <? length l' then tl l' else l'.

(** ** Agent-.../audio_handler.py: [AudioHandler.listen_and_detect] *)
Module Segmenter.
Import Config.

Record seg_state := mkSeg {
  is_speaking : bool;
  speech_buffer : list bytes;
  silence_chunks_after_speech : nat;
  ring_buffer : list bytes
}.

(** [collections.deque(maxlen=5)] *)
Definition RING_MAXLEN := 5.

Definition init : seg_state := mkSeg false [] 0 [].

(** [threading.Thread(target=self.on_speech_start)] and
    [threading.Thread(target=self.on_speech_end, args=(final_audio,))] *)
Inductive signal :=
  | SpeechStarted
  | SpeechEnded (final_audio : bytes).

(** [silence_duration_ms >= config.VAD_MAX_SILENCE_DURATION_MS] *)
Definition endpoint_reached (silence_chunks : nat) : bool :=
  (VAD_MAX_SILENCE_DURATION_MS <=? N.of_nat silence_chunks * VAD_FRAME_MS)%N.

(** One iteration of the loop on a chunk and its VAD verdict
    ([_process_chunk]); [fast_check_in_progress] is [None] in agent.py. *)
Definition step (st : seg_state) (frame : bytes * bool)
    : seg_state * list signal :=
  let '(chunk, is_speech) := frame in
  if is_speech then
    if negb (is_speaking st) then
      let sb := speech_buffer st ++ ring_buffer st in
      (mkSeg true (sb ++ [chunk]) 0 [], [SpeechStarted])
    else
      (mkSeg true (speech_buffer st ++ [chunk]) 0 (ring_buffer st), [])
  else if is_speaking st then
    let sb := speech_buffer st ++ [chunk] in
    let c := S (silence_chunks_after_speech st) in
    if endpoint_reached c then
      let final_audio := concat sb in
      (mkSeg false [] 0 [],
       if (min_speech_duration_samples * 2 <=? N.of_nat (length final_audio))%N
       then [SpeechEnded final_audio] else [])
    else (mkSeg true sb c (ring_buffer st), [])
  else
    (mkSeg false (speech_buffer st) (silence_chunks_after_speech st)
           (deque_append RING_MAXLEN (ring_buffer st) chunk), []).

Fixpoint run (st : seg_state) (frames : list (bytes * bool))
    : seg_state * list signal :=
  match frames with
  | [] => (st, [])
  | f :: rest =>
      let '(st1, out1) := step st f in
      let '(st2, out2) := run st1 rest in
      (st2, out1 ++ out2)
  end.
End Segmenter.

(** ** top-level audio_handler.py: [AudioHandler.listen_and_detect] *)
Module Legacy.
Import Config.

Record seg_state := mkSeg {
  is_speaking : bool;
  speech_buffer : bytes;           (* bytearray *)
  silence_samples_after_speech : N;
  ring_buffer : list bytes
}.

(** [self.ring_buffer_size = 15] *)
Definition ring_buffer_size := 15.

Definition init : seg_state := mkSeg false [] 0%N [].

(** One iteration on a chunk and its VAD verdict; the result lists what
    is put on [output_queue].  [interrupt_event] and the VAD state reset
    do not affect the buffers and are left out. *)
Definition step (st : seg_state) (frame : bytes * bool)
    : seg_state * list bytes :=
  let '(chunk, is_speech) := frame in
  let st1 :=
    if is_speaking st
    then mkSeg true (speech_buffer st ++ chunk)
               (silence_samples_after_speech st) (ring_buffer st)
    else mkSeg false (speech_buffer st) (silence_samples_after_speech st)
               (deque_append ring_buffer_size (ring_buffer st) chunk) in
  if is_speech && negb (is_speaking st1) then
    (mkSeg true (speech_buffer st1 ++ concat (ring_buffer st1)) 0%N [], [])
  else if negb is_speech && is_speaking st1 then
    let s := (silence_samples_after_speech st1 + AUDIO_CHUNK_SIZE)%N in
    if (max_silence_samples <=? s)%N then
      (mkSeg false [] s (ring_buffer st1),
       if (min_speech_duration_samples * 2
             <=? N.of_nat (length (speech_buffer st1)))%N
       then [speech_buffer st1] else [])
    else (mkSeg true (speech_buffer st1) s (ring_buffer st1), [])
  else (st1, []).

Fixpoint run (st : seg_state) (frames : list (bytes * bool))
    : seg_state * list bytes :=
  match frames with
  | [] => (st, [])
  | f :: rest =>
      let '(st1, out1) := step st f in
      let '(st2, out2) := run st1 rest in
      (st2, out1 ++ out2)
  end.
End Legacy.

(** ** queue.Queue: items and the unfinished-task counter used by join() *)
Module PyQueue.
Record pyqueue (A : Type) := mkQ { items : list A; unfinished_tasks : nat }.
Arguments mkQ {A}.
Arguments items {A}.
Arguments unfinished_tasks {A}.

Definition empty {A} : pyqueue A := mkQ [] 0.

Definition put {A} (x : A) (q : pyqueue A) : pyqueue A :=
  mkQ (items q ++ [x]) (S (unfinished_tasks q)).

(** [get] / [get_nowait]; [None] is [queue.Empty] *)
Definition get {A} (q : pyqueue A) : option (A * pyqueue A) :=
  match items q with
  | [] => None
  | x :: t => Some (x, mkQ t (unfinished_tasks q))
  end.

(** [task_done]; [None] is [ValueError('task_done() called too many times')] *)
Definition task_done {A} (q : pyqueue A) : option (pyqueue A) :=
  match unfinished_tasks q with
  | 0 => None
  | S n => Some (mkQ (items q) n)
  end.

(** [join()] returns once no task is unfinished *)
Definition join_returns {A} (q : pyqueue A) : bool :=
  Nat.eqb (unfinished_tasks q) 0.
End PyQueue.

(** ** TTS playback queue *)
Module TTS.
Import PyQueue.

(** [(text, interrupt_event)]; the event is identified by a number *)
Definition item := (string * nat)%type.

(** [tts_queue] and the item the worker thread has taken with [get] and
    not yet marked [task_done] (the one rendering). *)
Record tts_state := mkTTS {
  tts_queue : pyqueue item;
  rendering : option item
}.

Definition rendering_count (st : tts_state) : nat :=
  match rendering st with Some _ => 1 | None => 0 end.

(** [play_audio_stream]: no-op on blank text *)
Definition play_audio_stream (text : string) (ev : nat) (st : tts_state)
    : tts_state :=
  if String.eqb (PyStr.strip text) "" then st
  else mkTTS (put (text, ev) (tts_queue st)) (rendering st).

(** Agent-.../tts_handler.py [clear_queue]:
    [with self.tts_queue.mutex: self.tts_queue.queue.clear()] *)
Definition clear_queue (st : tts_state) : tts_state :=
  mkTTS (mkQ [] (unfinished_tasks (tts_queue st))) (rendering st).

(** top-level tts_handler.py, drain on interrupt:
    [while not empty(): get_nowait(); task_done()] *)
Fixpoint drain_loop (fuel : nat) (q : pyqueue item) : option (pyqueue item) :=
  match fuel with
  | 0 => Some q
  | S f =>
      match get q with
      | None => Some q
      | Some (_, q1) =>
          match task_done q1 with
          | None => None
          | Some q2 => drain_loop f q2
          end
      end
  end.

Definition drain_on_interrupt (st : tts_state) : option tts_state :=
  match drain_loop (length (items (tts_queue st))) (tts_queue st) with
  | Some q => Some (mkTTS q (rendering st))
  | None => None
  end.

(** One step of the worker [_process_tts_queue]: take the next item, or
    finish the current one ([finally: task_done()]).  [None]: the worker
    has nothing to do (its [get(timeout=0.1)] keeps raising Empty). *)
Definition worker_step (st : tts_state) : option tts_state :=
  match rendering st with
  | Some _ =>
      match task_done (tts_queue st) with
      | Some q => Some (mkTTS q None)
      | None => None
      end
  | None =>
      match get (tts_queue st) with
      | Some (x, q) => Some (mkTTS q (Some x))
      | None => None
      end
  end.

(** [wait_for_completion]: [self.tts_queue.join()] *)
Definition wait_for_completion_returns (st : tts_state) : bool :=
  join_returns (tts_queue st).
End TTS.

(** ** Agent-.../agent.py: guardrail and main loop *)
Module MainLoop.
Record message := mkMsg { role : string; content : string }.

Record agent_state := mkAgent {
  conversation_history : list message;
  interrupt_event : bool;
  spoken : list string;        (* texts given to play_audio_stream *)
  llm_invocations : nat        (* calls of _trigger_large_llm *)
}.

Definition guardrail_marker : string := "捣乱".
Definition guardrail_response : string := "请我们专注于当前任务。".

(** [_apply_input_guardrails]; the played response is followed by
    [wait_for_completion]. *)
Definition apply_input_guardrails (user_text : string) (st : agent_state)
    : bool * agent_state :=
  if PyStr.contains guardrail_marker user_text then
    (true, mkAgent (conversation_history st) false
                   (spoken st ++ [guardrail_response]) (llm_invocations st))
  else (false, st).

(** [_trigger_large_llm]: one more invocation, then the response turn,
    whose effect on the state comes from the external model. *)
Definition trigger_large_llm (llm_turn : agent_state -> agent_state)
    (st : agent_state) : agent_state :=
  llm_turn (mkAgent (conversation_history st) (interrupt_event st)
                    (spoken st) (S (llm_invocations st))).

(** One iteration of [_main_loop] on an item of [user_speech_queue];
    [transcribed] is [self._transcribe(audio_data)], [None] when it
    raises (caught by [except Exception]). *)
Definition main_loop_iteration (transcribed : option string)
    (llm_turn : agent_state -> agent_state) (st : agent_state)
    : agent_state :=
  match transcribed with
  | None => st
  | Some user_text =>
      let '(blocked, st1) := apply_input_guardrails user_text st in
      if blocked then st1
      else
        trigger_large_llm llm_turn
          (mkAgent (conversation_history st1 ++ [mkMsg "user" user_text])
                   (interrupt_event st1) (spoken st1) (llm_invocations st1))
  end.
End MainLoop.

(** ** Notions used in the statements *)
Module Notions.
(** the last [n] elements of a list (all of it when shorter) *)
Definition lastn {A} (n : nat) (l : list A) : list A :=
  skipn (length l - n) l.

(** [N] silence chunks of [VAD_FRAME_MS] reach
    [VAD_MAX_SILENCE_DURATION_MS]: 800 / 32 *)
Definition MAX_SILENCE_CHUNKS := 25.

(** the silence-run counter after a run of frames inside a segment:
    speech resets it, silence increments it *)
Fixpoint silence_run (c : nat) (ws : list (bytes * bool)) : nat :=
  match ws with
  | [] => c
  | (_, b) :: t => silence_run (if b then 0 else S c) t
  end.

(** no silence run inside [ws] reaches the threshold *)
Fixpoint stays_open (c : nat) (ws : list (bytes * bool)) : Prop :=
  match ws with
  | [] => True
  | (_, b) :: t =>
      (if b then True else S c < MAX_SILENCE_CHUNKS) /\
      stays_open (if b then 0 else S c) t
  end.

Definition silent (x : bytes) : bytes * bool := (x, false).

(** one chunk of [AUDIO_CHUNK_SIZE] paInt16 samples *)
Definition chunk1024 : bytes := repeat Byte.x00 1024.
End Notions.

(** ** queue2.py: [Q2MessageQueue] (computer agent -> phone agent) *)
Module Q2.
Import PyQueue.

Definition q2 := pyqueue string.

Definition q2_put (text : string) (q : q2) : q2 := put text q.

Definition is_empty (q : q2) : bool :=
  match items q with [] => true | _ => false end.

(** [get]: [while not empty(): messages.append(get_nowait())] *)
Fixpoint get_loop (fuel : nat) (q : q2) (messages : list string)
    : list string * q2 :=
  match fuel with
  | 0 => (messages, q)
  | S f =>
      match PyQueue.get q with
      | None => (messages, q)
      | Some (m, q1) => get_loop f q1 (messages ++ [m])
      end
  end.

Definition q2_get (q : q2) : list string * q2 :=
  get_loop (length (items q)) q [].
End Q2.

(** ** agent.py: [_queue_2_watcher], one pass of its loop *)
Module Watcher.
Import MainLoop.

Definition computer_message (m : string) : message :=
  mkMsg "user" ("[FROM_COMPUTER_AGENT] " ++ m)%string.

(** [busy] is [self._is_system_busy()]; the [else] branch sleeps. *)
Definition watcher_iteration (busy : bool)
    (llm_turn : agent_state -> agent_state)
    (st : agent_state) (q : Q2.q2) : agent_state * Q2.q2 :=
  if negb busy && negb (Q2.is_empty q) then
    let '(messages, q') := Q2.q2_get q in
    let st1 := fold_left
                 (fun s m =>
                    mkAgent (conversation_history s ++ [computer_message m])
                            (interrupt_event s) (spoken s) (llm_invocations s))
                 messages st in
    (trigger_large_llm llm_turn st1, q')
  else (st, q).

(** [_is_system_busy]: [llm_handler.is_active() or tts_handler.is_speaking()] *)
Definition is_system_busy (llm_active tts_speaking : bool) : bool :=
  llm_active || tts_speaking.
End Watcher.

(** ** The TTS worker thread, one item of [_process_tts_queue] *)
Module TTSWorker.
Import PyQueue.

Record worker_state := mkW {
  wqueue : pyqueue TTS.item;
  is_processing_audio : bool
}.

(** Agent-.../tts_handler.py [is_speaking]:
    [self._is_processing_audio.is_set() or not self.tts_queue.empty()] *)
Definition is_speaking (st : worker_state) : bool :=
  is_processing_audio st ||
  match items (wqueue st) with [] => false | _ => true end.

(** One item, Agent-.../tts_handler.py: [detect] is langdetect
    ([None] when it raises, then ['zh']), [preprocess] is
    [preprocess_sentence]; playback errors are caught, so rendering only
    ends with [task_done] and the flag cleared.  [None]: the queue is
    empty ([queue.Empty], the loop continues) or [task_done] raised. *)
Definition process_one (detect : string -> option string)
    (preprocess : string -> string -> string) (st : worker_state)
    : option worker_state :=
  match get (wqueue st) with
  | None => None
  | Some ((text, _), q1) =>
      let detected_lang := match detect text with
                           | Some l => l | None => "zh"%string end in
      let processed_text := preprocess text detected_lang in
      if String.eqb (PyStr.strip processed_text) "" then
        match task_done q1 with
        | Some q2 => Some (mkW q2 true)
        | None => None
        end
      else
        match task_done q1 with
        | Some q2 => Some (mkW q2 false)
        | None => None
        end
  end.

(** The same item in the top-level tts_handler.py: default language
    ['en'], and the skip path clears [is_processing_tts] first. *)
Definition process_one_legacy (detect : string -> option string)
    (preprocess : string -> string -> string) (st : worker_state)
    : option worker_state :=
  match get (wqueue st) with
  | None => None
  | Some ((text, _), q1) =>
      let detected_lang := match detect text with
                           | Some l => l | None => "en"%string end in
      let processed_text := preprocess text detected_lang in
      match task_done q1 with
      | Some q2 => Some (mkW q2 false)
      | None => None
      end
  end.
End TTSWorker.

(** ** Invariants of the segmenter *)
Module SegInv.
Import Segmenter.

(** idle: no segment buffered; the ring never exceeds its [maxlen];
    speaking: the ring has been flushed into the segment *)
Definition seg_inv (st : seg_state) : Prop :=
  (is_speaking st = false -> speech_buffer st = []) /\
  length (ring_buffer st) <= RING_MAXLEN /\
  (is_speaking st = true -> ring_buffer st = []).

(** signal sequences in which every [SpeechEnded] closes the segment
    opened by the last [SpeechStarted] ([open_] records whether one is
    open and not yet ended) *)
Fixpoint well_nested (open_ : bool) (sigs : list signal) : Prop :=
  match sigs with
  | [] => True
  | SpeechStarted :: t => well_nested true t
  | SpeechEnded _ :: t => open_ = true /\ well_nested false t
  end.
End SegInv.

(** ** utils/text_processor.py *)
Module TextProc.
Local Open Scope string_scope.

(** [str.replace(char, rep)] for a one-character [char]: every occurrence,
    left to right.  On UTF-8 text an ASCII byte only occurs as that
    character, so the byte-level replacement matches the code-point one. *)
Fixpoint replace_char (c : ascii) (rep s : string) : string :=
  match s with
  | EmptyString => EmptyString
  | String x t =>
      if Ascii.eqb x c then rep ++ replace_char c rep t
      else String x (replace_char c rep t)
  end.

Fixpoint has_char (c : ascii) (s : string) : bool :=
  match s with
  | EmptyString => false
  | String x t => Ascii.eqb x c || has_char c t
  end.

(** [special_char_map], in insertion order *)
Definition special_char_map : list (ascii * string) :=
  [("@"%char, "at"); ("#"%char, "hash"); ("$"%char, "dollar");
   ("%"%char, "percent"); ("^"%char, "caret"); ("&"%char, "ampersand");
   ("*"%char, "asterisk"); ("_"%char, "underscore"); ("="%char, "equals");
   ("+"%char, "plus"); ("["%char, "left square bracket");
   ("]"%char, "right square bracket"); ("{"%char, "left curly brace");
   ("}"%char, "right curly brace"); ("|"%char, "vertical bar");
   ("\"%char, "backslash"); ("<"%char, "less than");
   (">"%char, "greater than"); ("/"%char, "slash"); ("`"%char, "backtick");
   ("~"%char, "tilde")].

(** [punctuation_map]; the double quote is character 34 *)
Definition punctuation_map : list (ascii * string) :=
  [("!"%char, "exclamation"); ("."%char, "dot"); (","%char, "comma");
   ("?"%char, "question mark"); (";"%char, "semicolon");
   (":"%char, "colon"); (ascii_of_nat 34, "double quote");
   ("'"%char, "single quote"); ("-"%char, "minus");
   ("("%char, "left parenthesis"); (")"%char, "right parenthesis")].

(** [processed_text.replace(char, f' {pronunciation} ')] over a map *)
Definition replace_all (m : list (ascii * string)) (text : string) : string :=
  fold_left (fun acc '(c, p) => replace_char c (" " ++ p ++ " ") acc) m text.

Definition pronounce_special_characters (text : string) (is_code_block : bool)
    : string :=
  let processed_text := replace_all special_char_map text in
  if is_code_block then replace_all punctuation_map processed_text
  else processed_text.

(** [_number_to_words_en]; list indexing is [nth_error] ([None]:
    [IndexError]) *)
Definition ones := [""; "one"; "two"; "three"; "four"; "five"; "six";
                    "seven"; "eight"; "nine"].
Definition tens := [""; ""; "twenty"; "thirty"; "forty"; "fifty"; "sixty";
                    "seventy"; "eighty"; "ninety"].
Definition teens := ["ten"; "eleven"; "twelve"; "thirteen"; "fourteen";
                     "fifteen"; "sixteen"; "seventeen"; "eighteen"; "nineteen"].
Definition scales := [""; "thousand"; "million"; "billion"].

Definition idx (l : list string) (i : N) : option string :=
  nth_error l (N.to_nat i).

Definition obind {A B} (o : option A) (f : A -> option B) : option B :=
  match o with Some a => f a | None => None end.

Definition convert_group (n : N) : option string :=
  let r1 : option (string * N) :=
    if (100 <=? n)%N
    then obind (idx ones (n / 100)) (fun w => Some (w ++ " hundred ", (n mod 100)%N))
    else Some ("", n) in
  obind r1 (fun '(result, n) =>
    if (20 <=? n)%N then
      obind (idx tens (n / 10)) (fun w =>
        let n := (n mod 10)%N in
        if (0 <? n)%N
        then obind (idx ones n) (fun o => Some (PyStr.strip (result ++ w ++ "-" ++ o)))
        else Some (PyStr.strip (result ++ w)))
    else if (10 <=? n)%N then
      obind (idx teens (n - 10)) (fun w => Some (PyStr.strip (result ++ w)))
    else if (0 <? n)%N then
      obind (idx ones n) (fun w => Some (PyStr.strip (result ++ w)))
    else Some (PyStr.strip result)).

(** [while num > 0: ...]; [fuel] bounds the iterations (one per base-1000
    digit, see [number_to_words_en]) *)
Fixpoint words_loop (fuel : nat) (num : N) (group_index : nat) (result : string)
    : option string :=
  match fuel with
  | 0 => Some result
  | S f =>
      if (0 <? num)%N then
        let group := (num mod 1000)%N in
        let r := if negb (N.eqb group 0)
                 then obind (convert_group group) (fun g =>
                        obind (nth_error scales group_index) (fun sc =>
                          Some (g ++ " " ++ sc ++ " " ++ result)))
                 else Some result in
        obind r (fun result => words_loop f (num / 1000)%N (S group_index) result)
      else Some result
  end.

(** one iteration per bit is more than one per base-1000 digit *)
Definition number_to_words_en (num : N) : option string :=
  if N.eqb num 0 then Some "zero"
  else obind (words_loop (S (N.to_nat (N.size num))) num 0 "")
             (fun r => Some (PyStr.strip r)).
End TextProc.

(** ** text_processor.py: [pronounce_numbers].  The regex [\d+] is read
    over the ASCII digits. *)
Module TextNum.
Import TextProc.
Local Open Scope string_scope.

(** no pronunciation (with its surrounding spaces) contains a key of the
    map: the replacements never re-introduce a replaced character *)
Definition pronunciations_clean (m : list (ascii * string)) : bool :=
  forallb (fun '(c, p) =>
    forallb (fun d => negb (has_char d (" " ++ p ++ " "))) (map fst m)) m.

Definition is_digit (c : ascii) : bool :=
  let n := nat_of_ascii c in (Nat.leb 48 n && Nat.leb n 57)%bool.

Fixpoint has_digit (s : string) : bool :=
  match s with
  | EmptyString => false
  | String c t => is_digit c || has_digit t
  end.

Definition convert_group_ok (k : nat) : bool :=
  match convert_group (N.of_nat k) with
  | Some s => negb (has_digit s)
  | None => false
  end.

(** the leading run of digits, and the rest *)
Fixpoint span_digits (s : string) : string * string :=
  match s with
  | EmptyString => ("", "")
  | String c t =>
      if is_digit c then let (d, r) := span_digits t in (String c d, r)
      else ("", s)
  end.

(** a match of the pattern [\d+], [\.?], [\d*] (in sequence, greedy) at
    the start of [s], and what follows it *)
Definition match_number (s : string) : option (string * string) :=
  match span_digits s with
  | (EmptyString, _) => None
  | (d1, r) =>
      match r with
      | String c r2 =>
          if Ascii.eqb c "." then
            let (d2, r3) := span_digits r2 in Some (d1 ++ "." ++ d2, r3)
          else Some (d1, r)
      | EmptyString => Some (d1, r)
      end
  end.

(** [s.split(c)] *)
Fixpoint split_char (c : ascii) (s : string) : list string :=
  match s with
  | EmptyString => [""]
  | String x t =>
      if Ascii.eqb x c then "" :: split_char c t
      else match split_char c t with
           | h :: r => String x h :: r
           | [] => [String x ""]
           end
  end.

(** [int(s)] on a string of ASCII digits; [None] is [ValueError] *)
Definition py_int (s : string) : option N :=
  let l := list_ascii_of_string s in
  match l with
  | [] => None
  | _ => if forallb is_digit l
         then Some (fold_left (fun acc c => acc * 10 + N.of_nat (nat_of_ascii c - 48))%N
                              l 0%N)
         else None
  end.

Fixpoint map_opt {A B} (f : A -> option B) (l : list A) : option (list B) :=
  match l with
  | [] => Some []
  | x :: t => obind (f x) (fun y => obind (map_opt f t) (fun ys => Some (y :: ys)))
  end.

(** [replace_func]: a [None] of the [try] body ([ValueError] or
    [IndexError]) returns [num_str] *)
Definition replace_func (num_str : string) : string :=
  let attempt : option string :=
    if has_char "." num_str then
      match split_char "." num_str with
      | [integer_part; decimal_part] =>
          obind (obind (py_int integer_part) number_to_words_en) (fun integer_words =>
            obind (map_opt (fun d => obind (py_int (String d "")) number_to_words_en)
                           (list_ascii_of_string decimal_part)) (fun ws =>
              Some (integer_words ++ " point " ++ String.concat " " ws)))
      | _ => None
      end
    else obind (py_int num_str) number_to_words_en in
  match attempt with Some r => r | None => num_str end.

(** [re.sub] of that pattern with [replace_func]: the scan resumes after
    each match; a match consumes at least one character, so
    [length text] rounds suffice *)
Fixpoint sub_loop (fuel : nat) (s : string) : string :=
  match fuel with
  | 0 => s
  | S f =>
      match match_number s with
      | Some (m, rest) => replace_func m ++ sub_loop f rest
      | None =>
          match s with
          | EmptyString => EmptyString
          | String c t => String c (sub_loop f t)
          end
      end
  end.

Definition pronounce_numbers (text language : string) : string :=
  if String.prefix "zh" language then text
  else sub_loop (String.length text) text.

(** no run of more than 12 consecutive digits; [cur] digits precede *)
Fixpoint short_runs (cur : nat) (s : string) : bool :=
  match s with
  | EmptyString => true
  | String c t =>
      if is_digit c then (Nat.ltb cur 12 && short_runs (S cur) t)%bool
      else short_runs 0 t
  end.

Definition is_ascii (s : string) : bool :=
  forallb (fun c => Nat.ltb (nat_of_ascii c) 128) (list_ascii_of_string s).
End TextNum.

(** ** llm_handler.py: [get_llm_response_stream] *)
Module LLM.
Import PyStr.
Local Open Scope string_scope.

(** a streamed [tool_call_chunk]: absent [id], [name] or [arguments] are
    read as [""] (both are falsy); [tcc_function = None] is a chunk
    without [function] (its field access raises) *)
Record tool_call_chunk := mkTCC {
  tcc_index : nat;
  tcc_id : string;
  tcc_function : option (string * string)  (* name, arguments *)
}.

(** [chunk.choices[0].delta]; an absent [content] is [""], an absent
    [delta] has neither content nor tool calls *)
Record delta := mkDelta {
  content : string;
  tool_calls : list tool_call_chunk
}.

(** a received chunk; [None] stands for a chunk whose processing raises
    outside the tool-call code ([choices] empty, or the iteration of the
    stream itself failing) *)
Definition chunk := option delta.

(** an accumulated [tool_calls] entry ([type] is always [function]) *)
Record tool_call := mkTC { tc_id : string; tc_name : string; tc_arguments : string }.

Inductive yielded := YText (s : string) | YToolCall (tc : tool_call).

(** [str.endswith] *)
Definition ends_with (suf s : string) : bool :=
  let n := String.length s in
  let m := String.length suf in
  (Nat.leb m n && String.eqb (substring (n - m) m s) suf)%bool.

Definition sentence_endings : list string :=
  ["."; "?"; "!"; "。"; "？"; "！"; ":"; "："].

Definition is_complete_sentence (text : string) : bool :=
  existsb (fun e => ends_with e (strip text)) sentence_endings.

Fixpoint set_nth {A} (l : list A) (i : nat) (x : A) : list A :=
  match l, i with
  | [], _ => []
  | _ :: t, 0 => x :: t
  | y :: t, S i => y :: set_nth t i x
  end.

(** one [tool_call_chunk] of the inner loop; [None]: the [IndexError] of
    [tool_calls[tool_call_chunk.index]] or the [AttributeError] of a
    missing [function] *)
Definition add_tool_chunk (tcs : list tool_call) (c : tool_call_chunk)
    : option (list tool_call) :=
  let tcs := if Nat.leb (length tcs) (tcc_index c)
             then (tcs ++ [mkTC "" "" ""])%list else tcs in
  match nth_error tcs (tcc_index c) with
  | None => None
  | Some tc =>
      let id := if String.eqb (tcc_id c) "" then tc_id tc else tcc_id c in
      match tcc_function c with
      | None => None
      | Some (name, args) =>
          let name := if String.eqb name "" then tc_name tc else name in
          let arguments := if String.eqb args "" then tc_arguments tc
                           else tc_arguments tc ++ args in
          Some (set_nth tcs (tcc_index c) (mkTC id name arguments))
      end
  end.

Fixpoint add_tool_chunks (tcs : list tool_call) (cs : list tool_call_chunk)
    : option (list tool_call) :=
  match cs with
  | [] => Some tcs
  | c :: cs => match add_tool_chunk tcs c with
               | Some tcs => add_tool_chunks tcs cs
               | None => None
               end
  end.

(** [for chunk in stream]: the yields, and at a normal end the state
    ([sentence_buffer], [tool_calls]); [None]: an exception, caught by
    [except Exception], which ends the generator *)
Fixpoint stream_loop (chunks : list chunk) (buf : string) (tcs : list tool_call)
    : list yielded * option (string * list tool_call) :=
  match chunks with
  | [] => ([], Some (buf, tcs))
  | None :: _ => ([], None)
  | Some d :: rest =>
      let '(ys, buf) :=
        if String.eqb (content d) "" then ([], buf)
        else
          let buf := buf ++ content d in
          if is_complete_sentence buf then ([YText (strip buf)], "")
          else ([], buf) in
      match add_tool_chunks tcs (tool_calls d) with
      | None => (ys, None)
      | Some tcs =>
          let '(ys2, r) := stream_loop rest buf tcs in ((ys ++ ys2)%list, r)
      end
  end.

Section Final.
(** [json.loads(arguments)] succeeds *)
Variable json_loads_ok : string -> bool.

Definition final_yields (buf : string) (tcs : list tool_call) : list yielded :=
  ((if negb (String.eqb (strip buf) "") then [YText (strip buf)] else []) ++
  flat_map (fun tc =>
    if (negb (String.eqb (tc_id tc) "") && negb (String.eqb (tc_name tc) "") &&
        negb (String.eqb (tc_arguments tc) "") && json_loads_ok (tc_arguments tc))%bool
    then [YToolCall tc] else []) tcs)%list.

(** the yields of the generator; [stream = None]: [create] raised *)
Definition get_llm_response_stream (stream : option (list chunk)) : list yielded :=
  match stream with
  | None => []
  | Some chunks =>
      let '(ys, r) := stream_loop chunks "" [] in
      match r with
      | None => ys
      | Some (buf, tcs) => (ys ++ final_yields buf tcs)%list
      end
  end.
End Final.
End LLM.

(** ** agent.py: the [for chunk_type, content in response_stream] loop of
    [_trigger_large_llm] *)
Module Consumer.
Import LLM.

(** [interrupted k]: [self.interrupt_event.is_set()] when the [k]-th item
    arrives.  Result: the texts passed to [play_audio_stream],
    [full_response_text] and [tool_call_in_progress]. *)
Fixpoint consume (interrupted : nat -> bool) (k : nat) (ys : list yielded)
    (played : list string) (full_response_text : string)
    : list string * string * option tool_call :=
  match ys with
  | [] => (played, full_response_text, None)
  | y :: ys =>
      if interrupted k then (played, full_response_text, None)
      else match y with
           | YText s => consume interrupted (S k) ys (played ++ [s])
                                (full_response_text ++ s)%string
           | YToolCall tc => (played, full_response_text, Some tc)
           end
  end.

Definition texts_of (ys : list yielded) : list string :=
  flat_map (fun y => match y with YText s => [s] | YToolCall _ => [] end) ys.

Fixpoint first_tool_call (ys : list yielded) : option tool_call :=
  match ys with
  | [] => None
  | YToolCall tc :: _ => Some tc
  | YText _ :: ys => first_tool_call ys
  end.
End Consumer.

(** * Theorems *)

Import Agent PyStr.

(** Fast path: the branches of [_fast_decision_thread]. *)
Lemma fast_decision_short (snap : bytes) tr cl :
  length snap < 2048 -> fast_decision snap tr cl = ("ignore"%string, FlagKeep).
Proof.
  intros H. unfold fast_decision.
  apply Nat.ltb_lt in H. now rewrite H.
Qed.

Lemma fast_decision_long (snap : bytes) tr cl :
  2048 <= length snap ->
  fast_decision snap tr cl =
    match tr snap with
    | None => ("process"%string, FlagSet)
    | Some text =>
        if String.eqb (strip text) "" then ("ignore"%string, FlagKeep)
        else match cl text with
             | None => ("process"%string, FlagSet)
             | Some content =>
                 if String.eqb (lower (strip content)) "interrupt"
                 then ("process"%string, FlagSet)
                 else ("ignore"%string, FlagClear)
             end
    end.
Proof.
  intros H. unfold fast_decision.
  assert (E : (length snap <? 2048) = false) by (apply Nat.ltb_ge; exact H).
  now rewrite E.
Qed.

(** C1: with no decision on the channel by the end of its wait, the
    arbiter [on_speech_end] appends the segment's audio to
    [user_speech_queue] (the timeout branch) and leaves the channel empty. *)
Theorem arbiter_timeout_forwards (st : chan_state) (audio : bytes) :
  decision_queue st = [] ->
  on_speech_end audio st =
    (mkChan [] (user_speech_queue st ++ [audio]), TimedOut).
Proof.
  intros H. unfold on_speech_end. now rewrite H.
Qed.

Lemma arbiter_timeout_forwards_witness :
  on_speech_end [Byte.x01] (mkChan [] []) = (mkChan [] [[Byte.x01]], TimedOut).
Proof. apply (arbiter_timeout_forwards (mkChan [] []) [Byte.x01]). reflexivity. Defined.

(** C2 (code bug): the fast path puts its decision with a blocking [put]
    and drains nothing; the arbiter drains only after its own wait.  Trace:
    utterance 1's arbiter times out and forwards, then utterance 1's late
    "ignore" is placed; utterance 2's arbiter consumes it (tag 1) and drops
    utterance 2's audio, and utterance 2's own "process" stays queued for
    the next utterance. *)
Theorem stale_decision_reaches_next_utterance :
  run [SpeechEnd 1 [Byte.x01]; FastPut 1 "ignore";
       SpeechEnd 2 [Byte.x02]; FastPut 2 "process"] (mkChan [] []) =
  Some (mkChan [(2, "process"%string)] [[Byte.x01]],
        [(1, TimedOut); (2, Consumed 1 "ignore")]).
Proof. reflexivity. Qed.

(** C3: the decision of the fast path: short snapshot -> "ignore";
    blank transcript -> "ignore"; classifier says "disinterrupt" ->
    "ignore"; classifier says "interrupt" -> "process" and the interrupt
    flag set; an exception in transcription or classification ->
    "process" and the flag set. *)
Theorem fast_decision_policy :
  (forall (snap : bytes) tr cl,
     length snap < 2048 -> fst (fast_decision snap tr cl) = "ignore"%string) /\
  (forall (snap : bytes) tr cl text,
     2048 <= length snap -> tr snap = Some text -> strip text = ""%string ->
     fst (fast_decision snap tr cl) = "ignore"%string) /\
  (forall (snap : bytes) tr cl text content,
     2048 <= length snap -> tr snap = Some text -> strip text <> ""%string ->
     cl text = Some content -> lower (strip content) = "disinterrupt"%string ->
     fst (fast_decision snap tr cl) = "ignore"%string) /\
  (forall (snap : bytes) tr cl text content,
     2048 <= length snap -> tr snap = Some text -> strip text <> ""%string ->
     cl text = Some content -> lower (strip content) = "interrupt"%string ->
     fast_decision snap tr cl = ("process"%string, FlagSet)) /\
  (forall (snap : bytes) tr cl,
     2048 <= length snap ->
     (tr snap = None \/
      exists text, tr snap = Some text /\ strip text <> ""%string /\ cl text = None) ->
     fast_decision snap tr cl = ("process"%string, FlagSet)).
Proof.
  split; [|split; [|split; [|split]]].
  - intros snap tr cl H. now rewrite fast_decision_short.
  - intros snap tr cl text H Ht Hs. rewrite fast_decision_long by exact H.
    now rewrite Ht, Hs.
  - intros snap tr cl text content H Ht Hs Hc Hd.
    rewrite fast_decision_long by exact H.
    rewrite Ht. apply String.eqb_neq in Hs. rewrite Hs, Hc, Hd. reflexivity.
  - intros snap tr cl text content H Ht Hs Hc Hd.
    rewrite fast_decision_long by exact H.
    rewrite Ht. apply String.eqb_neq in Hs. rewrite Hs, Hc, Hd. reflexivity.
  - intros snap tr cl H [Ht | [text [Ht [Hs Hc]]]];
      rewrite fast_decision_long by exact H; rewrite Ht; [reflexivity|].
    apply String.eqb_neq in Hs. now rewrite Hs, Hc.
Qed.

Lemma fast_decision_policy_witness :
  fst (fast_decision [] (fun _ => None) (fun _ => None)) = "ignore"%string /\
  fst (fast_decision (repeat Byte.x00 2048)
         (fun _ => Some (String (ascii_of_nat 227) (String (ascii_of_nat 128)
                           (String (ascii_of_nat 128) ""))))
         (fun _ => None)) = "ignore"%string /\
  fast_decision (repeat Byte.x00 2048) (fun _ => Some "stop"%string)
    (fun _ => Some " Interrupt "%string) = ("process"%string, FlagSet).
Proof.
  split; [|split].
  - apply (proj1 fast_decision_policy). simpl. lia.
  - apply (proj1 (proj2 fast_decision_policy) _ _ _
             (String (ascii_of_nat 227) (String (ascii_of_nat 128)
                (String (ascii_of_nat 128) "")))).
    + rewrite repeat_length. lia.
    + reflexivity.
    + vm_compute. reflexivity.
  - apply (proj1 (proj2 (proj2 (proj2 fast_decision_policy))) _ _ _
             "stop"%string " Interrupt "%string).
    + rewrite repeat_length. lia.
    + reflexivity.
    + intros H. vm_compute in H. discriminate H.
    + reflexivity.
    + vm_compute. reflexivity.
Defined.

(** C8 (counterexample): a transcription that raises in the fast path is
    not treated like an empty transcript: with a 2048-byte snapshot the
    raising transcription gives "process" (flag set) while an empty
    transcript gives "ignore". *)
Lemma transcribe_failure_not_empty_cex :
  fast_decision (repeat Byte.x00 2048) (fun _ => None) (fun _ => None)
    = ("process"%string, FlagSet) /\
  fast_decision (repeat Byte.x00 2048) (fun _ => Some ""%string) (fun _ => None)
    = ("ignore"%string, FlagKeep).
Proof. split; reflexivity. Qed.

(** C8 (amended): when the transcription raises inside the fast path (and
    the snapshot is long enough to reach it), the exception handler makes
    the decision "process" and sets the interrupt flag. *)
Theorem transcribe_failure_processes (snap : bytes) tr cl :
  2048 <= length snap -> tr snap = None ->
  fast_decision snap tr cl = ("process"%string, FlagSet).
Proof.
  intros H Ht. rewrite fast_decision_long by exact H. now rewrite Ht.
Qed.

Lemma transcribe_failure_processes_witness :
  fast_decision (repeat Byte.x00 2048) (fun _ => None) (fun _ => None)
    = ("process"%string, FlagSet).
Proof.
  apply transcribe_failure_processes; [rewrite repeat_length; lia | reflexivity].
Defined.

(** C9: a decision received from the channel forwards the segment exactly
    when it is the string "process"; any other string drops it. *)
Theorem arbiter_forwards_only_process (st : chan_state) (audio : bytes)
    (tag : nat) (d : string) rest :
  decision_queue st = (tag, d) :: rest ->
  (d = "process"%string ->
     user_speech_queue (fst (on_speech_end audio st))
       = user_speech_queue st ++ [audio]) /\
  (d <> "process"%string ->
     user_speech_queue (fst (on_speech_end audio st)) = user_speech_queue st).
Proof.
  intros H. unfold on_speech_end. rewrite H. simpl. split.
  - intros ->. reflexivity.
  - intros Hd. apply String.eqb_neq in Hd. now rewrite Hd.
Qed.

Lemma arbiter_forwards_only_process_witness :
  user_speech_queue
    (fst (on_speech_end [Byte.x01] (mkChan [(0, "Process"%string)] [])))
  = [].
Proof.
  apply (proj2 (arbiter_forwards_only_process
                  (mkChan [(0, "Process"%string)] []) [Byte.x01] 0
                  "Process" [] eq_refl)).
  discriminate.
Defined.

(** ** Segmenter *)
Import Notions.

Lemma endpoint_reached_iff (c : nat) :
  Segmenter.endpoint_reached c = true <-> MAX_SILENCE_CHUNKS <= c.
Proof.
  unfold Segmenter.endpoint_reached, MAX_SILENCE_CHUNKS,
    Config.VAD_MAX_SILENCE_DURATION_MS, Config.VAD_FRAME_MS.
  rewrite N.leb_le. lia.
Qed.

Lemma seg_run_app (st : Segmenter.seg_state) xs ys :
  Segmenter.run st (xs ++ ys) =
  let '(st1, o1) := Segmenter.run st xs in
  let '(st2, o2) := Segmenter.run st1 ys in (st2, o1 ++ o2).
Proof.
  revert st. induction xs as [|x xs IH]; intros st; simpl.
  - destruct (Segmenter.run st ys). reflexivity.
  - destruct (Segmenter.step st x) as [st1 o1].
    rewrite IH. destruct (Segmenter.run st1 xs) as [st2 o2].
    destruct (Segmenter.run st2 ys) as [st3 o3].
    now rewrite app_assoc.
Qed.

Lemma lastn_short {A} (n : nat) (l : list A) : length l <= n -> lastn n l = l.
Proof.
  intros H. unfold lastn. now replace (length l - n) with 0 by lia.
Qed.

Lemma deque_append_lastn {A} (n : nat) (l : list A) (x : A) :
  0 < n -> deque_append n (lastn n l) x = lastn n (l ++ [x]).
Proof.
  intros Hn. unfold deque_append, lastn.
  rewrite !length_app, length_skipn. simpl.
  destruct (Nat.lt_ge_cases (length l) n) as [Hlt | Hge].
  - replace (length l - n) with 0 by lia. simpl.
    replace (n <? length l - 0 + 1) with false
      by (symmetry; apply Nat.ltb_ge; lia).
    now replace (length l + 1 - n) with 0 by lia.
  - replace (n <? length l - (length l - n) + 1) with true
      by (symmetry; apply Nat.ltb_lt; lia).
    rewrite skipn_app.
    replace (length l + 1 - n - length l) with 0 by lia.
    replace (length l + 1 - n) with (1 + (length l - n)) by lia.
    rewrite <- skipn_skipn. simpl skipn at 3.
    destruct (skipn (length l - n) l) as [|a t] eqn:E.
    + apply (f_equal (@length A)) in E. rewrite length_skipn in E.
      simpl in E. lia.
    + reflexivity.
Qed.

(** While idle, silence frames only feed the ring buffer, which holds the
    last [RING_MAXLEN] of them. *)
Lemma seg_run_idle (seen pre : list bytes) (c : nat) :
  Segmenter.run (Segmenter.mkSeg false [] c (lastn Segmenter.RING_MAXLEN seen))
                (map silent pre) =
  (Segmenter.mkSeg false [] c (lastn Segmenter.RING_MAXLEN (seen ++ pre)), []).
Proof.
  revert seen. induction pre as [|x pre IH]; intros seen; simpl.
  - now rewrite app_nil_r.
  - rewrite deque_append_lastn by (unfold Segmenter.RING_MAXLEN; lia).
    rewrite IH, <- app_assoc. reflexivity.
Qed.

(** Inside a segment, frames that never complete a silence run are
    appended and keep the segment open; the counter follows
    [silence_run]. *)
Lemma seg_run_speaking_open (ws : list (bytes * bool)) sb c ring :
  stays_open c ws ->
  Segmenter.run (Segmenter.mkSeg true sb c ring) ws =
  (Segmenter.mkSeg true (sb ++ map fst ws) (silence_run c ws) ring, []).
Proof.
  revert sb c. induction ws as [|[ch b] ws IH]; intros sb c Hopen; simpl.
  - now rewrite app_nil_r.
  - destruct Hopen as [Hb Hrest]. destruct b; simpl.
    + rewrite IH by exact Hrest. now rewrite <- app_assoc.
    + assert (E : Segmenter.endpoint_reached (S c) = false).
      { destruct (Segmenter.endpoint_reached (S c)) eqn:E'; [|reflexivity].
        apply endpoint_reached_iff in E'. lia. }
      rewrite E, IH by exact Hrest. now rewrite <- app_assoc.
Qed.

(** The frame that completes a silence run of [MAX_SILENCE_CHUNKS]
    finalizes the segment. *)
Lemma seg_step_endpoint sb c ring (g : bytes) :
  S c = MAX_SILENCE_CHUNKS ->
  Segmenter.step (Segmenter.mkSeg true sb c ring) (g, false) =
  (Segmenter.init,
   let final_audio := concat (sb ++ [g]) in
   if (Config.min_speech_duration_samples * 2
         <=? N.of_nat (length final_audio))%N
   then [Segmenter.SpeechEnded final_audio] else []).
Proof.
  intros H. simpl.
  assert (E : Segmenter.endpoint_reached (S c) = true)
    by (apply endpoint_reached_iff; lia).
  now rewrite E.
Qed.

(** C6: from idle (empty segment buffer, ring [r] of at most
    [RING_MAXLEN] frames), silence frames [pre], an onset frame [f], frames
    [ws] in which no silence run reaches the threshold and which end with
    a run of [MAX_SILENCE_CHUNKS - 1] silence frames, then the silence
    frame [g] that completes the run: the segment is finalized to the
    concatenation in arrival order of the last [RING_MAXLEN] idle frames,
    [f], [ws] and [g]; it is emitted unless shorter than the minimum. *)
Theorem preroll_segment_audio (r pre : list bytes) (c : nat) (f g : bytes)
    (ws : list (bytes * bool)) :
  length r <= Segmenter.RING_MAXLEN ->
  stays_open 0 ws ->
  S (silence_run 0 ws) = MAX_SILENCE_CHUNKS ->
  Segmenter.run (Segmenter.mkSeg false [] c r)
                (map silent pre ++ (f, true) :: ws ++ [(g, false)]) =
  (Segmenter.init,
   Segmenter.SpeechStarted ::
   (let final_audio :=
      concat (lastn Segmenter.RING_MAXLEN (r ++ pre) ++ [f] ++ map fst ws ++ [g]) in
    if (Config.min_speech_duration_samples * 2
          <=? N.of_nat (length final_audio))%N
    then [Segmenter.SpeechEnded final_audio] else [])).
Proof.
  intros Hr Hopen Hrun.
  rewrite <- (lastn_short Segmenter.RING_MAXLEN r) at 1 by exact Hr.
  rewrite seg_run_app, seg_run_idle.
  cbn [Segmenter.run Segmenter.step Segmenter.is_speaking negb
       Segmenter.speech_buffer Segmenter.ring_buffer].
  rewrite seg_run_app, seg_run_speaking_open by exact Hopen.
  cbn [Segmenter.run].
  rewrite seg_step_endpoint by exact Hrun.
  cbn -[concat N.leb N.mul N.of_nat length].
  rewrite app_nil_r, <- !app_assoc. reflexivity.
Qed.

Lemma preroll_segment_audio_witness :
  Segmenter.run (Segmenter.mkSeg false [] 0 [])
    (map silent [[Byte.x01]; [Byte.x02]] ++ ([Byte.x03], true)
       :: repeat (silent [Byte.x00]) 24 ++ [([Byte.x00], false)]) =
  (Segmenter.init,
   Segmenter.SpeechStarted ::
   (let final_audio :=
      concat (lastn Segmenter.RING_MAXLEN ([] ++ [[Byte.x01]; [Byte.x02]])
              ++ [[Byte.x03]] ++ map fst (repeat (silent [Byte.x00]) 24)
              ++ [[Byte.x00]]) in
    if (Config.min_speech_duration_samples * 2
          <=? N.of_nat (length final_audio))%N
    then [Segmenter.SpeechEnded final_audio] else [])).
Proof.
  apply preroll_segment_audio.
  - simpl. unfold Segmenter.RING_MAXLEN. lia.
  - simpl. unfold MAX_SILENCE_CHUNKS. repeat split; lia.
  - reflexivity.
Defined.

(** C4 (code bug): in agent.py's audio_handler a speech frame inside a
    segment resets the silence counter, so the frames below (onset, 24
    silence frames, one speech frame, one silence frame) leave the segment
    open; the top-level audio_handler.py has no branch for speech while
    speaking, keeps counting silence across the speech frame and ends the
    segment (putting it on [output_queue]) after the last frame. *)
Theorem silence_reset_legacy_divergence :
  (forall sb c ring (ch : bytes),
     Segmenter.step (Segmenter.mkSeg true sb c ring) (ch, true) =
     (Segmenter.mkSeg true (sb ++ [ch]) 0 ring, [])) /\
  (let trace := (chunk1024, true) :: repeat (silent chunk1024) 24
                  ++ [(chunk1024, true); silent chunk1024] in
   Segmenter.is_speaking (fst (Segmenter.run Segmenter.init trace)) = true /\
   snd (Segmenter.run Segmenter.init trace) = [Segmenter.SpeechStarted] /\
   Legacy.is_speaking (fst (Legacy.run Legacy.init trace)) = false /\
   length (snd (Legacy.run Legacy.init trace)) = 1).
Proof.
  split.
  - intros. reflexivity.
  - vm_compute. repeat split.
Qed.

Lemma concat_repeat_length (f : bytes) (n : nat) :
  length (concat (repeat f n)) = n * length f.
Proof.
  induction n as [|n IH]; simpl; [reflexivity|].
  now rewrite length_app, IH.
Qed.

(** C5 (code bug): the minimum-duration check measures the whole buffer,
    trailing silence included.  One speech frame of [CHUNK_BYTES] bytes
    (32 ms voiced, below the 250 ms minimum) followed by the 25 silence
    frames of the endpoint is still emitted as [SpeechEnded]; the
    top-level audio_handler.py likewise puts the 26624 bytes on its
    output queue. *)
Theorem short_voiced_segment_emitted (f : bytes) :
  N.of_nat (length f) = Config.CHUNK_BYTES ->
  let trace := (f, true) :: repeat (silent f) 25 in
  (N.of_nat (length (filter snd trace)) * Config.VAD_FRAME_MS
     < Config.VAD_MIN_SPEECH_DURATION_MS)%N /\
  Segmenter.run Segmenter.init trace =
    (Segmenter.init,
     [Segmenter.SpeechStarted;
      Segmenter.SpeechEnded (concat (repeat f 26))]) /\
  map (fun a => N.of_nat (length a))
      (snd (Legacy.run Legacy.init
              ((chunk1024, true) :: repeat (silent chunk1024) 25)))
    = [26624%N].
Proof.
  intros Hf trace. split; [|split].
  - reflexivity.
  - unfold trace.
    change ((f, true) :: repeat (silent f) 25)
      with ([(f, true)] ++ repeat (silent f) 24 ++ [(f, false)]).
    rewrite seg_run_app. cbn [Segmenter.run Segmenter.step Segmenter.init
      Segmenter.is_speaking negb Segmenter.speech_buffer Segmenter.ring_buffer].
    rewrite seg_run_app.
    rewrite seg_run_speaking_open
      by (simpl; unfold MAX_SILENCE_CHUNKS; repeat split; lia).
    cbn [Segmenter.run].
    rewrite seg_step_endpoint by reflexivity.
    change (((([] ++ []) ++ [f]) ++ map fst (repeat (silent f) 24)) ++ [f])
      with (repeat f 26).
    cbv zeta.
    replace (Config.min_speech_duration_samples * 2
               <=? N.of_nat (length (concat (repeat f 26))))%N with true.
    + reflexivity.
    + symmetry. rewrite concat_repeat_length, Nat2N.inj_mul, Hf.
      vm_compute. reflexivity.
  - vm_compute. reflexivity.
Qed.

Lemma short_voiced_segment_emitted_witness :
  Segmenter.run Segmenter.init ((chunk1024, true) :: repeat (silent chunk1024) 25) =
    (Segmenter.init,
     [Segmenter.SpeechStarted;
      Segmenter.SpeechEnded (concat (repeat chunk1024 26))]).
Proof.
  apply (short_voiced_segment_emitted chunk1024).
  vm_compute. reflexivity.
Defined.

(** ** Playback queue *)
Import PyQueue.

(** The legacy interrupt drain marks every drained item done: on a queue
    whose counter covers the queued items, it empties the queue and
    subtracts their number from the counter. *)
Lemma drain_loop_counts (fuel : nat) (its : list TTS.item) (k : nat) :
  length its <= fuel ->
  TTS.drain_loop fuel (mkQ its (length its + k)) = Some (mkQ [] k).
Proof.
  revert fuel. induction its as [|x its IH]; intros fuel Hf.
  - destruct fuel; reflexivity.
  - destruct fuel as [|fuel]; [simpl in Hf; lia|].
    simpl. apply IH. simpl in Hf. lia.
Qed.

Lemma drain_on_interrupt_counts (its : list TTS.item) (r : option TTS.item) :
  TTS.drain_on_interrupt
    (TTS.mkTTS (mkQ its (length its + match r with Some _ => 1 | None => 0 end)) r)
  = Some (TTS.mkTTS (mkQ [] (match r with Some _ => 1 | None => 0 end)) r).
Proof.
  unfold TTS.drain_on_interrupt. simpl.
  now rewrite drain_loop_counts.
Qed.

(** C7 (code bug): agent.py's [clear_queue] empties [tts_queue.queue]
    under its mutex without [task_done], so after two [play_audio_stream]
    calls on an idle handler and a [clear_queue] the unfinished-task count
    stays 2 while nothing renders; the worker has no item to take or
    finish, so [wait_for_completion] ([join]) never returns.  The drain of
    the top-level tts_handler.py, on the same queued items while one item
    renders, leaves exactly that one unfinished and [join] returns after
    the worker finishes it. *)
Theorem clear_queue_keeps_unfinished :
  let st0 := TTS.play_audio_stream "b" 0
               (TTS.play_audio_stream "a" 0 (TTS.mkTTS empty None)) in
  let st1 := TTS.clear_queue st0 in
  unfinished_tasks (TTS.tts_queue st1) = 2 /\
  TTS.rendering_count st1 = 0 /\
  TTS.wait_for_completion_returns st1 = false /\
  TTS.worker_step st1 = None /\
  (let st2 := TTS.mkTTS (mkQ [("a", 0); ("b", 0)]%string 3) (Some ("c", 0)%string) in
   match TTS.drain_on_interrupt st2 with
   | Some st3 =>
       unfinished_tasks (TTS.tts_queue st3) = TTS.rendering_count st3 /\
       match TTS.worker_step st3 with
       | Some st4 => TTS.wait_for_completion_returns st4 = true
       | None => False
       end
   | None => False
   end).
Proof.
  vm_compute. repeat split.
Qed.

(** ** Guardrail *)
Import MainLoop.

(** C10: when the transcript contains the guardrail marker, the main loop
    iteration leaves the history and the count of large-model invocations
    unchanged, clears the interrupt flag and plays only the scripted
    response, whatever the large-model turn would do. *)
Theorem guardrail_skips_turn (st : agent_state) (user_text : string)
    (llm_turn : agent_state -> agent_state) :
  PyStr.contains guardrail_marker user_text = true ->
  main_loop_iteration (Some user_text) llm_turn st =
  mkAgent (conversation_history st) false
          (spoken st ++ [guardrail_response]) (llm_invocations st).
Proof.
  intros H. unfold main_loop_iteration, apply_input_guardrails.
  now rewrite H.
Qed.

Lemma guardrail_skips_turn_witness :
  main_loop_iteration (Some ("你在捣乱"%string)) (fun s => s)
    (mkAgent [mkMsg "system" "p"] true [] 0) =
  mkAgent [mkMsg "system" "p"] false [guardrail_response] 0.
Proof.
  apply (guardrail_skips_turn (mkAgent [mkMsg "system" "p"] true [] 0)).
  vm_compute. reflexivity.
Defined.

Example main_loop_normal_turn :
  main_loop_iteration (Some "hello"%string) (fun s => s)
    (mkAgent [] false [] 0) =
  mkAgent [mkMsg "user" "hello"] false [] 1.
Proof. reflexivity. Qed.

(** ** Computer-agent message queue and watcher *)

Lemma q2_get_loop (its : list string) (unf fuel : nat) (acc : list string) :
  length its <= fuel ->
  Q2.get_loop fuel (mkQ its unf) acc = (acc ++ its, mkQ [] unf).
Proof.
  revert fuel acc. induction its as [|m its IH]; intros fuel acc Hf.
  - destruct fuel; simpl; now rewrite app_nil_r.
  - destruct fuel as [|fuel]; [simpl in Hf; lia|].
    simpl. rewrite IH by (simpl in Hf; lia). now rewrite <- app_assoc.
Qed.

Lemma q2_get_all (q : Q2.q2) :
  Q2.q2_get q = (items q, mkQ [] (unfinished_tasks q)).
Proof.
  destruct q as [its unf]. unfold Q2.q2_get. simpl.
  rewrite q2_get_loop by lia. reflexivity.
Qed.

(** [Q2MessageQueue.get] returns every queued message in FIFO order and
    leaves the queue empty. *)
Theorem q2_get_drains_fifo (q : Q2.q2) :
  Q2.q2_get q = (items q, mkQ [] (unfinished_tasks q)) /\
  Q2.is_empty (snd (Q2.q2_get q)) = true.
Proof.
  destruct q as [its unf]. unfold Q2.q2_get. simpl.
  rewrite q2_get_loop by lia. split; reflexivity.
Qed.

(** Messages put with [Q2MessageQueue.put] come back from [get] in the
    order they were put. *)
Theorem q2_put_get_roundtrip (ms : list string) :
  fst (Q2.q2_get (fold_left (fun q m => Q2.q2_put m q) ms empty)) = ms.
Proof.
  assert (H : forall (q : Q2.q2),
             items (fold_left (fun q m => Q2.q2_put m q) ms q) = items q ++ ms).
  { induction ms as [|m ms IH]; intros q; simpl.
    - now rewrite app_nil_r.
    - rewrite IH. unfold Q2.q2_put, put. simpl. now rewrite <- app_assoc. }
  rewrite q2_get_all. simpl. now rewrite H.
Qed.

Lemma fold_computer_messages (ms : list string) (st : agent_state) :
  fold_left
    (fun s m =>
       mkAgent (conversation_history s ++ [Watcher.computer_message m])
               (interrupt_event s) (spoken s) (llm_invocations s)) ms st =
  mkAgent (conversation_history st ++ map Watcher.computer_message ms)
          (interrupt_event st) (spoken st) (llm_invocations st).
Proof.
  revert st. induction ms as [|m ms IH]; intros st; simpl.
  - destruct st; simpl. now rewrite app_nil_r.
  - rewrite IH. simpl. now rewrite <- app_assoc.
Qed.

(** [_queue_2_watcher]: when the system is idle and messages are pending,
    one pass appends all of them, in FIFO order and each prefixed with
    "[FROM_COMPUTER_AGENT] ", as user messages, then triggers the large
    model once, and empties the queue. *)
Theorem watcher_appends_pending_messages (llm_turn : agent_state -> agent_state)
    (st : agent_state) (q : Q2.q2) :
  items q <> [] ->
  Watcher.watcher_iteration false llm_turn st q =
  (trigger_large_llm llm_turn
     (mkAgent (conversation_history st ++ map Watcher.computer_message (items q))
              (interrupt_event st) (spoken st) (llm_invocations st)),
   mkQ [] (unfinished_tasks q)).
Proof.
  intros Hq. unfold Watcher.watcher_iteration.
  assert (E : Q2.is_empty q = false)
    by (unfold Q2.is_empty; destruct (items q); [contradiction|reflexivity]).
  rewrite E. simpl. rewrite (q2_get_all q).
  now rewrite fold_computer_messages.
Qed.

Lemma watcher_appends_pending_messages_witness :
  Watcher.watcher_iteration false (fun s => s) (mkAgent [] false [] 0)
    (mkQ ["done"%string] 1) =
  (mkAgent [Watcher.computer_message "done"] false [] 1, mkQ [] 1).
Proof.
  apply (watcher_appends_pending_messages (fun s => s) (mkAgent [] false [] 0)
           (mkQ ["done"%string] 1)).
  discriminate.
Defined.

(** ** TTS worker *)

(** Agent-.../tts_handler.py: an item whose preprocessed text is blank is
    marked done but [_is_processing_audio] stays set, so [is_speaking()]
    keeps reporting true on an idle, empty queue and [_is_system_busy]
    keeps the computer-message watcher from consuming; the top-level
    tts_handler.py clears its flag on the same path. *)
Theorem blank_item_leaves_speaking_flag (detect : string -> option string)
    (preprocess : string -> string -> string) (text : string) (ev : nat)
    (llm_turn : agent_state -> agent_state) (st : agent_state) (q : Q2.q2) :
  (forall lang, PyStr.strip (preprocess text lang) = ""%string) ->
  let w := TTSWorker.mkW (mkQ [(text, ev)] 1) false in
  TTSWorker.process_one detect preprocess w =
    Some (TTSWorker.mkW (mkQ [] 0) true) /\
  TTSWorker.is_speaking (TTSWorker.mkW (mkQ [] 0) true) = true /\
  Watcher.watcher_iteration
    (Watcher.is_system_busy false
       (TTSWorker.is_speaking (TTSWorker.mkW (mkQ [] 0) true)))
    llm_turn st q = (st, q) /\
  TTSWorker.process_one_legacy detect preprocess w =
    Some (TTSWorker.mkW (mkQ [] 0) false).
Proof.
  intros Hblank w. unfold w, TTSWorker.process_one. simpl.
  rewrite Hblank. simpl. repeat split.
Qed.

Lemma blank_item_leaves_speaking_flag_witness :
  TTSWorker.process_one (fun _ => None) (fun _ _ => " "%string)
    (TTSWorker.mkW (mkQ [("---"%string, 0)] 1) false) =
  Some (TTSWorker.mkW (mkQ [] 0) true).
Proof.
  apply (blank_item_leaves_speaking_flag (fun _ => None) (fun _ _ => " "%string)
           "---" 0 (fun s => s) (mkAgent [] false [] 0) empty).
  intros. reflexivity.
Defined.

(** ** Segmenter and channel invariants *)

Lemma deque_append_length {A} (n : nat) (l : list A) (x : A) :
  length l <= n -> length (deque_append n l x) <= n.
Proof.
  intros H. unfold deque_append.
  destruct (n <? length (l ++ [x])) eqn:E.
  - apply Nat.ltb_lt in E. rewrite length_app in *. simpl in *.
    destruct l as [|y l]; simpl in *; [lia|].
    rewrite length_app. simpl. lia.
  - apply Nat.ltb_ge in E. exact E.
Qed.

Lemma seg_inv_step (st : Segmenter.seg_state) (fr : bytes * bool) :
  SegInv.seg_inv st -> SegInv.seg_inv (fst (Segmenter.step st fr)).
Proof.
  destruct st as [sp sb c ring], fr as [ch b].
  unfold SegInv.seg_inv; simpl. intros [Hidle [Hlen Hsp]].
  destruct b, sp; simpl;
    try destruct (Segmenter.endpoint_reached (S c)); simpl;
    repeat split; simpl; intros; try discriminate; auto; try lia;
    apply deque_append_length; exact Hlen.
Qed.

(** Along any sequence of frames from the initial state, the ring buffer
    never holds more than [RING_MAXLEN] frames, the segment buffer is
    empty whenever no segment is open, and the ring is empty while one is
    open. *)
Theorem seg_inv_run (frames : list (bytes * bool)) :
  SegInv.seg_inv (fst (Segmenter.run Segmenter.init frames)).
Proof.
  assert (G : forall st, SegInv.seg_inv st ->
                SegInv.seg_inv (fst (Segmenter.run st frames))).
  { induction frames as [|fr frames IH]; intros st H; simpl; [exact H|].
    destruct (Segmenter.step st fr) as [st1 o1] eqn:E.
    specialize (IH st1).
    destruct (Segmenter.run st1 frames) as [st2 o2]. simpl in *.
    apply IH. replace st1 with (fst (Segmenter.step st fr)) by now rewrite E.
    now apply seg_inv_step. }
  apply G. unfold SegInv.seg_inv; simpl. repeat split; auto; lia.
Qed.

Lemma seg_run_cons (st : Segmenter.seg_state) fr frames :
  Segmenter.run st (fr :: frames) =
  (fst (Segmenter.run (fst (Segmenter.step st fr)) frames),
   snd (Segmenter.step st fr) ++ snd (Segmenter.run (fst (Segmenter.step st fr)) frames)).
Proof.
  simpl. destruct (Segmenter.step st fr) as [st1 o1]. simpl.
  destruct (Segmenter.run st1 frames). reflexivity.
Qed.

(** The signals of the segmenter are well nested: every [SpeechEnded]
    follows the [SpeechStarted] of its segment, with no other
    [SpeechEnded] in between. *)
Theorem signals_well_nested (frames : list (bytes * bool)) :
  SegInv.well_nested false (snd (Segmenter.run Segmenter.init frames)).
Proof.
  assert (G : forall st b, (Segmenter.is_speaking st = true -> b = true) ->
                SegInv.well_nested b (snd (Segmenter.run st frames))).
  { induction frames as [|[ch sp] frames IH]; intros st b Hb; [exact I|].
    rewrite seg_run_cons.
    destruct st as [speaking sb c ring]; simpl in Hb.
    destruct sp, speaking; unfold Segmenter.step;
      cbn -[Segmenter.run Segmenter.endpoint_reached N.leb].
    - apply IH. auto.
    - apply IH. auto.
    - destruct (Segmenter.endpoint_reached (S c));
        cbn -[Segmenter.run N.leb].
      + destruct (_ <=? _)%N; cbn -[Segmenter.run].
        * split; [auto|]. apply IH. discriminate.
        * apply IH. discriminate.
      + apply IH. auto.
    - apply IH. discriminate. }
  apply G. discriminate.
Qed.


(** ** text_processor.py *)

Import TextProc TextNum.

Lemma has_char_app (d : ascii) (a b : string) :
  has_char d (a ++ b) = (has_char d a || has_char d b)%bool.
Proof.
  induction a as [|x a IH]; simpl; [reflexivity|].
  rewrite IH. apply orb_assoc.
Qed.

Lemma replace_char_removes (c : ascii) (rep s : string) :
  has_char c rep = false -> has_char c (replace_char c rep s) = false.
Proof.
  intros Hrep. induction s as [|x s IH]; simpl; [reflexivity|].
  destruct (Ascii.eqb x c) eqn:E.
  - rewrite has_char_app, Hrep, IH. reflexivity.
  - simpl. rewrite E, IH. reflexivity.
Qed.

Lemma replace_char_keeps (d c : ascii) (rep s : string) :
  has_char d rep = false -> has_char d s = false ->
  has_char d (replace_char c rep s) = false.
Proof.
  intros Hrep. induction s as [|x s IH]; simpl; [reflexivity|].
  intros Hs. apply orb_false_iff in Hs as [Hx Hs].
  destruct (Ascii.eqb x c).
  - rewrite has_char_app, Hrep, IH by exact Hs. reflexivity.
  - simpl. rewrite Hx, IH by exact Hs. reflexivity.
Qed.

Lemma replace_all_keeps (m : list (ascii * string)) (d : ascii) (s : string) :
  (forall c p, In (c, p) m -> has_char d (" " ++ p ++ " ") = false) ->
  has_char d s = false -> has_char d (replace_all m s) = false.
Proof.
  unfold replace_all. revert s.
  induction m as [|[c p] m IH]; intros s Hm Hs; simpl; [exact Hs|].
  apply IH.
  - intros c' p' H. apply (Hm c' p'). right. exact H.
  - apply replace_char_keeps; [|exact Hs]. apply (Hm c p). left. reflexivity.
Qed.

Lemma replace_all_removes (m : list (ascii * string)) (s : string) (d : ascii) :
  pronunciations_clean m = true -> In d (map fst m) ->
  has_char d (replace_all m s) = false.
Proof.
  intros Hc. unfold pronunciations_clean in Hc. rewrite forallb_forall in Hc.
  assert (Hd : forall d c p, In d (map fst m) -> In (c, p) m ->
                 has_char d (" " ++ p ++ " ") = false).
  { intros d' c p Hd' Hin. specialize (Hc (c, p) Hin). simpl in Hc.
    rewrite forallb_forall in Hc. apply negb_true_iff. exact (Hc d' Hd'). }
  clear Hc. revert s.
  induction m as [|[c p] m IH]; intros s Hin; [destruct Hin|].
  unfold replace_all. simpl.
  destruct (Ascii.eqb_spec c d) as [<-|Hne].
  - apply replace_all_keeps.
    + intros c' p' H. apply (Hd c c' p'); [left; reflexivity | right; exact H].
    + apply replace_char_removes. apply (Hd c c p); left; reflexivity.
  - destruct Hin as [Heq|Hin]; [simpl in Heq; congruence|].
    apply IH; [|exact Hin].
    intros d' c' p' H1 H2. apply (Hd d' c' p'); right; assumption.
Qed.

(** [pronounce_special_characters] leaves none of the characters of
    [special_char_map] in its output, and with [is_code_block] none of
    the punctuation of [punctuation_map] either: no pronunciation
    re-introduces a character replaced before or after it. *)
Theorem pronounce_special_characters_complete (text : string) (d : ascii) :
  (In d (map fst special_char_map) ->
   has_char d (pronounce_special_characters text false) = false) /\
  (In d (map fst (special_char_map ++ punctuation_map)) ->
   has_char d (pronounce_special_characters text true) = false).
Proof.
  split; intros Hin; unfold pronounce_special_characters.
  - apply replace_all_removes; [vm_compute; reflexivity | exact Hin].
  - unfold replace_all. rewrite <- fold_left_app.
    apply (replace_all_removes (special_char_map ++ punctuation_map));
      [vm_compute; reflexivity | exact Hin].
Qed.

Lemma pronounce_special_characters_complete_witness :
  In "@"%char (map fst special_char_map) /\
  In "."%char (map fst (special_char_map ++ punctuation_map)) /\
  has_char "@"%char (pronounce_special_characters "x@y.z" false) = false /\
  has_char "."%char (pronounce_special_characters "x@y.z" true) = false.
Proof.
  assert (H1 : In "@"%char (map fst special_char_map)) by (simpl; auto).
  assert (H2 : In "."%char (map fst (special_char_map ++ punctuation_map)))
    by (vm_compute; tauto).
  split; [exact H1|]. split; [exact H2|]. split.
  - exact (proj1 (pronounce_special_characters_complete "x@y.z" "@"%char) H1).
  - exact (proj2 (pronounce_special_characters_complete "x@y.z" "."%char) H2).
Defined.

Lemma convert_group_total (n : N) :
  (n < 1000)%N -> convert_group n <> None.
Proof.
  intros Hn.
  assert (Hall : forallb convert_group_ok (seq 0 1000) = true)
    by (vm_compute; reflexivity).
  rewrite forallb_forall in Hall.
  assert (Hin : In (N.to_nat n) (seq 0 1000)) by (apply in_seq; lia).
  specialize (Hall _ Hin). unfold convert_group_ok in Hall.
  rewrite N2Nat.id in Hall. destruct (convert_group n); congruence.
Qed.

Lemma words_loop_range (fuel : nat) (num : N) (gi : nat) (result : string) :
  (num < 2 ^ N.of_nat fuel)%N ->
  (words_loop fuel num gi result <> None <->
   (num < 1000 ^ N.of_nat (4 - gi))%N).
Proof.
  revert num gi result.
  induction fuel as [|f IH]; intros num gi result Hnum; simpl.
  - split; [intros _|discriminate].
    assert (0 < 1000 ^ N.of_nat (4 - gi))%N by (apply N.neq_0_lt_0, N.pow_nonzero; lia).
    simpl in Hnum. lia.
  - assert (Hp : (0 < 1000 ^ N.of_nat (4 - gi))%N)
      by (apply N.neq_0_lt_0, N.pow_nonzero; lia).
    destruct (0 <? num)%N eqn:Hpos.
    2:{ apply N.ltb_ge in Hpos. split; [intros _; lia | discriminate]. }
    apply N.ltb_lt in Hpos.
    assert (Hdm := N.div_mod num 1000 ltac:(lia)).
    assert (Hmod := N.mod_lt num 1000 ltac:(lia)).
    set (q := (num / 1000)%N) in *. set (r := (num mod 1000)%N) in *.
    assert (Hq : (q < 2 ^ N.of_nat f)%N).
    { rewrite Nat2N.inj_succ, N.pow_succ_r' in Hnum. lia. }
    specialize (IH q (S gi)).
    assert (Hstep : forall P : N, (1000 ^ N.of_nat (4 - gi) = 1000 * P)%N ->
              ((q < P)%N <-> (num < 1000 ^ N.of_nat (4 - gi))%N)).
    { intros P HP. rewrite HP. lia. }
    destruct (Nat.lt_ge_cases gi 4) as [Hgi|Hgi].
    + assert (HP : (1000 ^ N.of_nat (4 - gi) = 1000 * 1000 ^ N.of_nat (4 - S gi))%N).
      { replace (4 - gi) with (S (4 - S gi)) by lia.
        rewrite Nat2N.inj_succ, N.pow_succ_r'. reflexivity. }
      rewrite <- (Hstep _ HP).
      assert (Hsc : exists sc, nth_error scales gi = Some sc).
      { destruct gi as [|[|[|[|gi]]]]; [eexists; reflexivity ..|lia]. }
      destruct Hsc as [sc Hsc].
      destruct (negb (r =? 0)%N).
      * assert (Hg := convert_group_total r Hmod).
        destruct (convert_group r) as [g|]; [|congruence].
        simpl. rewrite Hsc. simpl. apply IH. exact Hq.
      * simpl. apply IH. exact Hq.
    + destruct gi as [|[|[|[|gi]]]]; try lia. simpl.
      destruct (r =? 0)%N eqn:Hr; simpl.
      * apply N.eqb_eq in Hr.
        rewrite (IH result Hq). simpl. lia.
      * assert (Hg := convert_group_total r Hmod).
        destruct (convert_group r) as [g|]; [|congruence].
        simpl. destruct gi; simpl; split; (congruence || lia).
Qed.

(** [_number_to_words_en] succeeds exactly below 10^12: from 10^12 on
    the fifth base-1000 group indexes [scales] out of range and raises
    [IndexError]. *)
Theorem number_to_words_en_range (num : N) :
  number_to_words_en num <> None <-> (num < 10 ^ 12)%N.
Proof.
  unfold number_to_words_en.
  destruct (num =? 0)%N eqn:H0.
  - apply N.eqb_eq in H0. subst. split; [intros _; reflexivity | discriminate].
  - assert (Hb : (num < 2 ^ N.of_nat (S (N.to_nat (N.size num))))%N).
    { rewrite Nat2N.inj_succ, N2Nat.id, N.pow_succ_r'.
      assert (H := N.size_gt num). lia. }
    pose proof (words_loop_range _ num 0 "" Hb) as H.
    change (1000 ^ N.of_nat (4 - 0))%N with (10 ^ 12)%N in H.
    rewrite <- H.
    destruct (words_loop _ num 0 ""); simpl; split; congruence.
Qed.

Section DropLead.
Variable p1 : ascii -> bool.
Variable p2 : ascii -> ascii -> bool.
Variable p3 : ascii -> ascii -> ascii -> bool.

Lemma drop_lead_cases (l : list ascii) :
  drop_lead p1 p2 p3 l = l \/
  exists q t, l = q ++ t /\ q <> [] /\ drop_lead p1 p2 p3 l = drop_lead p1 p2 p3 t.
Proof.
  destruct l as [|a t]; [left; reflexivity|]. simpl.
  destruct (p1 a). { right. exists [a], t. repeat split; discriminate. }
  destruct t as [|b t2]; [left; reflexivity|].
  destruct (p2 a b). { right. exists [a; b], t2. repeat split; discriminate. }
  destruct t2 as [|c t3]; [left; reflexivity|].
  destruct (p3 a b c); [|left; reflexivity].
  right. exists [a; b; c], t3. repeat split; discriminate.
Qed.

Lemma drop_lead_ind (P : list ascii -> Prop) :
  (forall l, drop_lead p1 p2 p3 l = l -> P l) ->
  (forall q t l, l = q ++ t -> q <> [] ->
     drop_lead p1 p2 p3 l = drop_lead p1 p2 p3 t -> P t -> P l) ->
  forall l, P l.
Proof.
  intros Hfix Hstep.
  assert (G : forall n l, length l <= n -> P l).
  { induction n as [|n IH]; intros l Hl.
    - destruct l; [apply Hfix; reflexivity | simpl in Hl; lia].
    - destruct (drop_lead_cases l) as [E | [q [t [E [Hq Hd]]]]]; [apply Hfix; exact E|].
      apply (Hstep q t l E Hq Hd). apply IH.
      destruct q as [|x q]; [congruence|].
      rewrite E in Hl. simpl in Hl. rewrite length_app in Hl. lia. }
  intros l. exact (G _ l (le_n _)).
Qed.

Lemma drop_lead_suffix (l : list ascii) : exists q, l = q ++ drop_lead p1 p2 p3 l.
Proof.
  apply (drop_lead_ind (fun l => exists q, l = q ++ drop_lead p1 p2 p3 l)).
  - intros l0 E. exists []. simpl. congruence.
  - intros q t l0 E Hq Hd [q' Hq']. exists (q ++ q').
    rewrite Hd, <- app_assoc, <- Hq'. exact E.
Qed.

Lemma drop_lead_idem (l : list ascii) :
  drop_lead p1 p2 p3 (drop_lead p1 p2 p3 l) = drop_lead p1 p2 p3 l.
Proof.
  apply (drop_lead_ind (fun l => drop_lead p1 p2 p3 (drop_lead p1 p2 p3 l) =
                                 drop_lead p1 p2 p3 l)).
  - intros l0 E. rewrite E. exact E.
  - intros q t l0 E Hq Hd IH. rewrite Hd. exact IH.
Qed.

Lemma drop_lead_length (l : list ascii) : length (drop_lead p1 p2 p3 l) <= length l.
Proof.
  destruct (drop_lead_suffix l) as [q Hq].
  rewrite Hq at 2. rewrite length_app. lia.
Qed.

(** a prefix of a string without leading whitespace has none either *)
Lemma drop_lead_prefix (a b : list ascii) :
  drop_lead p1 p2 p3 (a ++ b) = a ++ b -> drop_lead p1 p2 p3 a = a.
Proof.
  intros H.
  assert (Short : forall t, length t < length (a ++ b) ->
                    drop_lead p1 p2 p3 (a ++ b) <> drop_lead p1 p2 p3 t).
  { intros t Ht E. rewrite H in E.
    assert (L := drop_lead_length t). rewrite <- E in L. lia. }
  destruct a as [|x a]; [reflexivity|]. simpl in H, Short |- *.
  destruct (p1 x).
  { exfalso. apply (Short (a ++ b)); [simpl; lia | reflexivity]. }
  destruct a as [|y a]; [reflexivity|]. simpl in H, Short.
  destruct (p2 x y).
  { exfalso. apply (Short (a ++ b)); [simpl; lia | reflexivity]. }
  destruct a as [|z a]; [reflexivity|]. simpl in H, Short.
  destruct (p3 x y z); [|reflexivity].
  exfalso. apply (Short (a ++ b)); [simpl; lia | reflexivity].
Qed.

Lemma drop_lead_existsb (f : ascii -> bool) (l : list ascii) :
  existsb f (drop_lead p1 p2 p3 l) = true -> existsb f l = true.
Proof.
  destruct (drop_lead_suffix l) as [q Hq]. intros E.
  rewrite Hq, existsb_app, E. apply orb_true_r.
Qed.
End DropLead.

Lemma has_digit_app (a b : string) :
  has_digit (a ++ b) = (has_digit a || has_digit b)%bool.
Proof.
  induction a as [|x a IH]; simpl; [reflexivity|].
  rewrite IH. apply orb_assoc.
Qed.

Lemma has_digit_list (s : string) :
  has_digit s = existsb is_digit (list_ascii_of_string s).
Proof. induction s as [|c s IH]; simpl; congruence. Qed.


Lemma existsb_rev (f : ascii -> bool) (l : list ascii) :
  existsb f (rev l) = existsb f l.
Proof.
  induction l as [|c l IH]; simpl; [reflexivity|].
  rewrite existsb_app, IH. simpl. rewrite orb_false_r. apply orb_comm.
Qed.

Lemma has_digit_strip (s : string) :
  has_digit s = false -> has_digit (strip s) = false.
Proof.
  intros H. unfold strip. rewrite has_digit_list, list_ascii_of_string_of_list_ascii.
  rewrite has_digit_list in H.
  apply not_true_iff_false. intros E.
  rewrite existsb_rev in E. apply drop_lead_existsb in E.
  rewrite existsb_rev in E. apply drop_lead_existsb in E. congruence.
Qed.

Lemma convert_group_clean (n : N) :
  (n < 1000)%N -> exists g, convert_group n = Some g /\ has_digit g = false.
Proof.
  intros Hn.
  assert (Hall : forallb convert_group_ok (seq 0 1000) = true)
    by (vm_compute; reflexivity).
  rewrite forallb_forall in Hall.
  assert (Hin : In (N.to_nat n) (seq 0 1000)) by (apply in_seq; lia).
  specialize (Hall _ Hin). unfold convert_group_ok in Hall.
  rewrite N2Nat.id in Hall. destruct (convert_group n) as [g|]; [|discriminate].
  exists g. split; [reflexivity|]. apply negb_true_iff. exact Hall.
Qed.

Lemma words_loop_clean (fuel : nat) (num : N) (gi : nat) (result w : string) :
  has_digit result = false -> words_loop fuel num gi result = Some w ->
  has_digit w = false.
Proof.
  revert num gi result.
  induction fuel as [|f IH]; intros num gi result Hr Hw; simpl in Hw.
  - injection Hw as <-. exact Hr.
  - destruct (0 <? num)%N; [|injection Hw as <-; exact Hr].
    destruct (negb (num mod 1000 =? 0)%N) eqn:Hg; simpl in Hw.
    + destruct (convert_group_clean (num mod 1000)) as [g [Heq Hgd]];
        [apply N.mod_lt; lia|].
      rewrite Heq in Hw. simpl in Hw.
      destruct (nth_error scales gi) as [sc|] eqn:Hsc; [|discriminate].
      simpl in Hw. apply IH in Hw; [exact Hw|].
      assert (Hscd : has_digit sc = false).
      { apply nth_error_In in Hsc.
        assert (Hs : forallb (fun x => negb (has_digit x)) scales = true)
          by reflexivity.
        rewrite forallb_forall in Hs. apply negb_true_iff, Hs, Hsc. }
      rewrite has_digit_app, Hgd. simpl.
      rewrite has_digit_app, Hscd. simpl. exact Hr.
    + apply IH in Hw; assumption.
Qed.

Lemma number_to_words_en_clean (num : N) (w : string) :
  number_to_words_en num = Some w -> has_digit w = false.
Proof.
  unfold number_to_words_en. destruct (num =? 0)%N.
  - intros H. injection H as <-. reflexivity.
  - destruct (words_loop _ num 0 "") as [r|] eqn:E; simpl; [|discriminate].
    intros H. injection H as <-. apply has_digit_strip.
    exact (words_loop_clean _ _ _ "" _ eq_refl E).
Qed.

Lemma number_to_words_en_some (num : N) :
  (num < 10 ^ 12)%N -> exists w, number_to_words_en num = Some w.
Proof.
  intros Hn. unfold number_to_words_en.
  destruct (num =? 0)%N eqn:H0; [eexists; reflexivity|].
  assert (Hb : (num < 2 ^ N.of_nat (S (N.to_nat (N.size num))))%N).
  { rewrite Nat2N.inj_succ, N2Nat.id, N.pow_succ_r'.
    assert (H := N.size_gt num). lia. }
  pose proof (words_loop_range _ num 0 "" Hb) as H.
  change (1000 ^ N.of_nat (4 - 0))%N with (10 ^ 12)%N in H.
  destruct (words_loop _ num 0 "") as [r|]; simpl.
  - eexists; reflexivity.
  - exfalso. apply (proj2 H); [exact Hn | reflexivity].
Qed.

Lemma digits_value_bound (l : list ascii) (acc : N) :
  forallb is_digit l = true ->
  (fold_left (fun acc c => acc * 10 + N.of_nat (nat_of_ascii c - 48)) l acc
     < (acc + 1) * 10 ^ N.of_nat (length l))%N.
Proof.
  revert acc. induction l as [|c l IH]; intros acc Hl; cbn [fold_left length].
  - simpl. lia.
  - simpl in Hl. apply andb_true_iff in Hl as [Hc Hl].
    unfold is_digit in Hc. apply andb_true_iff in Hc as [_ Hc].
    apply Nat.leb_le in Hc.
    specialize (IH (acc * 10 + N.of_nat (nat_of_ascii c - 48))%N Hl).
    rewrite Nat2N.inj_succ, N.pow_succ_r'.
    assert (Hd : (N.of_nat (nat_of_ascii c - 48) <= 9)%N) by lia.
    set (P := (10 ^ N.of_nat (length l))%N) in *.
    nia.
Qed.

Lemma length_list_ascii (s : string) :
  List.length (list_ascii_of_string s) = String.length s.
Proof. induction s as [|c s IH]; simpl; congruence. Qed.

Lemma py_int_digits (d : string) :
  d <> EmptyString -> forallb is_digit (list_ascii_of_string d) = true ->
  exists v, py_int d = Some v /\ (v < 10 ^ N.of_nat (String.length d))%N.
Proof.
  intros Hne Hd. unfold py_int.
  pose proof (digits_value_bound (list_ascii_of_string d) 0 Hd) as H.
  rewrite length_list_ascii in H.
  destruct d as [|c t]; [congruence|]. cbn [list_ascii_of_string] in *.
  rewrite Hd. eexists. split; [reflexivity | lia].
Qed.

Lemma spelled_number (d : string) :
  d <> EmptyString -> forallb is_digit (list_ascii_of_string d) = true ->
  String.length d <= 12 ->
  exists w, obind (py_int d) number_to_words_en = Some w /\ has_digit w = false.
Proof.
  intros Hne Hd Hlen.
  destruct (py_int_digits d Hne Hd) as [v [Hv Hb]]. rewrite Hv. simpl.
  assert (Hv12 : (v < 10 ^ 12)%N).
  { eapply N.lt_le_trans; [exact Hb|]. apply N.pow_le_mono_r; lia. }
  destruct (number_to_words_en_some v Hv12) as [w Hw].
  exists w. split; [exact Hw|]. exact (number_to_words_en_clean v w Hw).
Qed.

Lemma has_char_digits (d : string) :
  forallb is_digit (list_ascii_of_string d) = true -> has_char "." d = false.
Proof.
  induction d as [|c d IH]; simpl; [reflexivity|].
  intros H. apply andb_true_iff in H as [Hc H]. rewrite (IH H).
  destruct (Ascii.eqb_spec c "."); [subst; discriminate | reflexivity].
Qed.

Lemma split_char_app (c : ascii) (a s h : string) (r : list string) :
  has_char c a = false -> split_char c s = h :: r ->
  split_char c (a ++ s) = (a ++ h)%string :: r.
Proof.
  intros Ha Hs. induction a as [|x a IH]; simpl; [exact Hs|].
  simpl in Ha. apply orb_false_iff in Ha as [Hx Ha].
  rewrite Hx, (IH Ha). reflexivity.
Qed.

Lemma map_opt_clean (f : ascii -> option string) (l : list ascii) :
  (forall x, In x l -> exists y, f x = Some y /\ has_digit y = false) ->
  exists ws, map_opt f l = Some ws /\ Forall (fun w => has_digit w = false) ws.
Proof.
  induction l as [|x l IH]; intros H; simpl.
  - exists []. split; [reflexivity | constructor].
  - destruct (H x (or_introl eq_refl)) as [y [Hy Hyd]]. rewrite Hy. simpl.
    destruct IH as [ws [Hws Hall]]; [intros z Hz; apply H; right; exact Hz|].
    rewrite Hws. simpl. exists (y :: ws). split; [reflexivity | constructor; assumption].
Qed.

Lemma concat_clean (sep : string) (ws : list string) :
  has_digit sep = false -> Forall (fun w => has_digit w = false) ws ->
  has_digit (String.concat sep ws) = false.
Proof.
  intros Hsep Hws. induction Hws as [|w ws Hw Hws IH]; [reflexivity|].
  destruct ws as [|w' ws]; simpl; [exact Hw|].
  simpl in IH. rewrite !has_digit_app, Hw, Hsep, IH. reflexivity.
Qed.

Lemma span_digits_spec (s d r : string) :
  span_digits s = (d, r) ->
  s = (d ++ r)%string /\ forallb is_digit (list_ascii_of_string d) = true /\
  match r with String c _ => is_digit c = false | EmptyString => True end.
Proof.
  revert d r. induction s as [|c s IH]; intros d r H; simpl in H.
  - injection H as <- <-. repeat split.
  - destruct (is_digit c) eqn:Hc.
    + destruct (span_digits s) as [d' r'] eqn:E. injection H as <- <-.
      destruct (IH d' r' eq_refl) as [-> [Hd Hr]].
      simpl. rewrite Hc, Hd. repeat split. exact Hr.
    + injection H as <- <-. simpl. repeat split. exact Hc.
Qed.

Lemma span_digits_short (cur : nat) (s d r : string) :
  cur <= 12 -> short_runs cur s = true -> span_digits s = (d, r) ->
  cur + String.length d <= 12 /\ short_runs 0 r = true.
Proof.
  revert cur d r. induction s as [|c s IH]; intros cur d r Hcur Hs H; simpl in H.
  - injection H as <- <-. simpl. split; [lia | reflexivity].
  - simpl in Hs. destruct (is_digit c) eqn:Hc.
    + apply andb_true_iff in Hs as [Hlt Hs]. apply Nat.ltb_lt in Hlt.
      destruct (span_digits s) as [d' r'] eqn:E. injection H as <- <-.
      destruct (IH (S cur) d' r' ltac:(lia) Hs eq_refl) as [Hl Hr].
      simpl. split; [lia | exact Hr].
    + injection H as <- <-. simpl. rewrite Hc. split; [lia | exact Hs].
Qed.

Lemma str_length_append (a b : string) :
  String.length (a ++ b) = String.length a + String.length b.
Proof. induction a as [|c a IH]; simpl; congruence. Qed.

Lemma str_append_nil_r (a : string) : (a ++ "")%string = a.
Proof. induction a as [|c a IH]; simpl; congruence. Qed.

Lemma str_append_assoc (a b c : string) :
  (a ++ (b ++ c))%string = ((a ++ b) ++ c)%string.
Proof. induction a as [|x a IH]; simpl; congruence. Qed.

Lemma match_number_clean (s m rest : string) :
  short_runs 0 s = true -> match_number s = Some (m, rest) ->
  has_digit (replace_func m) = false /\ short_runs 0 rest = true /\
  String.length rest < String.length s.
Proof.
  intros Hs Hm. unfold match_number in Hm.
  destruct (span_digits s) as [d1 r] eqn:E1.
  destruct (span_digits_spec _ _ _ E1) as [Hsd [Hd1 Hr]].
  destruct (span_digits_short 0 _ _ _ ltac:(lia) Hs E1) as [Hl1 Hr1].
  assert (Hlen : String.length s = String.length d1 + String.length r)
    by (rewrite Hsd; apply str_length_append).
  destruct d1 as [|c1 t1] eqn:Ed1; [discriminate|].
  rewrite <- Ed1 in *.
  assert (Hne : d1 <> EmptyString) by (rewrite Ed1; discriminate).
  assert (Hpos : 0 < String.length d1) by (rewrite Ed1; simpl; lia).
  assert (Hplain : has_digit (replace_func d1) = false).
  { unfold replace_func. rewrite (has_char_digits d1 Hd1).
    destruct (spelled_number d1 Hne Hd1 ltac:(lia)) as [w [Hw Hwd]].
    rewrite Hw. exact Hwd. }
  destruct r as [|c r2].
  - injection Hm as <- <-. split; [exact Hplain | split; [exact Hr1 | lia]].
  - destruct (Ascii.eqb_spec c ".") as [->|Hc].
    + destruct (span_digits r2) as [d2 r3] eqn:E2.
      injection Hm as <- <-.
      destruct (span_digits_spec _ _ _ E2) as [Hsd2 [Hd2 _]].
      simpl in Hr1.
      destruct (span_digits_short 0 _ _ _ ltac:(lia) Hr1 E2) as [_ Hr3].
      assert (Hlen2 : String.length r2 = String.length d2 + String.length r3)
        by (rewrite Hsd2; apply str_length_append).
      split; [| split; [exact Hr3 | simpl in Hlen; lia]].
      unfold replace_func.
      rewrite has_char_app, (has_char_digits d1 Hd1). simpl.
      assert (Hsp2 : split_char "." d2 = [d2]).
      { rewrite <- (str_append_nil_r d2) at 1.
        rewrite (split_char_app "." d2 "" "" [] (has_char_digits d2 Hd2) eq_refl).
        rewrite str_append_nil_r. reflexivity. }
      rewrite (split_char_app "." d1 (String "." d2) "" [d2] (has_char_digits d1 Hd1))
        by (simpl; rewrite Hsp2; reflexivity).
      rewrite str_append_nil_r.
      destruct (spelled_number d1 Hne Hd1 ltac:(lia)) as [w [Hw Hwd]].
      rewrite Hw. simpl.
      destruct (map_opt_clean (fun d => obind (py_int (String d "")) number_to_words_en)
                  (list_ascii_of_string d2)) as [ws [Hws Hall]].
      { intros x Hx. rewrite forallb_forall in Hd2.
        apply (spelled_number (String x "")); [discriminate | | simpl; lia].
        simpl. rewrite (Hd2 x Hx). reflexivity. }
      rewrite Hws. cbn [obind].
      rewrite has_digit_app, Hwd. simpl. apply concat_clean; [reflexivity | exact Hall].
    + assert (Hm' : Some (d1, String c r2) = Some (m, rest)).
      { rewrite <- Hm. destruct (Ascii.eqb c "."); [congruence | reflexivity]. }
      injection Hm' as <- <-. split; [exact Hplain | split; [exact Hr1 | lia]].
Qed.

Lemma sub_loop_clean (fuel : nat) (s : string) :
  String.length s <= fuel -> short_runs 0 s = true ->
  has_digit (sub_loop fuel s) = false.
Proof.
  revert s. induction fuel as [|f IH]; intros s Hlen Hs; simpl.
  - destruct s; [reflexivity | simpl in Hlen; lia].
  - destruct (match_number s) as [[m rest]|] eqn:Hm.
    + destruct (match_number_clean s m rest Hs Hm) as [Hr [Hrest Hl]].
      rewrite has_digit_app, Hr. apply IH; [lia | exact Hrest].
    + destruct s as [|c t]; [reflexivity|].
      assert (Hc : is_digit c = false).
      { unfold match_number in Hm. simpl in Hm. destruct (is_digit c); [|reflexivity].
        destruct (span_digits t) as [d r].
        destruct r as [|c' r]; [discriminate|].
        destruct (Ascii.eqb c' "."); [destruct (span_digits r)|]; discriminate. }
      simpl. rewrite Hc. simpl in Hs. rewrite Hc in Hs.
      apply IH; [simpl in Hlen; lia | exact Hs].
Qed.

Lemma match_number_shorter (s m rest : string) :
  match_number s = Some (m, rest) -> String.length rest < String.length s.
Proof.
  intros Hm. unfold match_number in Hm.
  destruct (span_digits s) as [d1 r] eqn:E1.
  destruct (span_digits_spec _ _ _ E1) as [Hsd _].
  assert (Hlen : String.length s = String.length d1 + String.length r)
    by (rewrite Hsd; apply str_length_append).
  destruct d1 as [|c1 t1]; [discriminate|]. simpl in Hlen.
  destruct r as [|c r2].
  - injection Hm as _ <-. simpl. lia.
  - destruct (Ascii.eqb c "."); [|injection Hm as _ <-; lia].
    destruct (span_digits r2) as [d2 r3] eqn:E2. injection Hm as _ <-.
    destruct (span_digits_spec _ _ _ E2) as [Hsd2 _].
    assert (String.length r2 = String.length d2 + String.length r3)
      by (rewrite Hsd2; apply str_length_append).
    simpl in Hlen. lia.
Qed.

Lemma sub_loop_fuel (f1 f2 : nat) (s : string) :
  String.length s <= f1 -> String.length s <= f2 -> sub_loop f1 s = sub_loop f2 s.
Proof.
  revert f2 s. induction f1 as [|f1 IH]; intros f2 s H1 H2.
  - destruct s; [|simpl in H1; lia]. destruct f2; reflexivity.
  - destruct f2 as [|f2].
    + destruct s; [reflexivity | simpl in H2; lia].
    + simpl. destruct (match_number s) as [[m rest]|] eqn:Hm.
      * apply match_number_shorter in Hm. f_equal. apply IH; lia.
      * destruct s as [|c t]; [reflexivity|]. simpl in H1, H2.
        f_equal. apply IH; lia.
Qed.

Lemma span_digits_app (d rest : string) :
  forallb is_digit (list_ascii_of_string d) = true ->
  match rest with String c _ => is_digit c = false | EmptyString => True end ->
  span_digits (d ++ rest) = (d, rest).
Proof.
  intros Hd Hr. induction d as [|c d IH]; simpl.
  - destruct rest as [|c r]; [reflexivity|]. simpl. rewrite Hr. reflexivity.
  - simpl in Hd. apply andb_true_iff in Hd as [Hc Hd].
    rewrite Hc, (IH Hd). reflexivity.
Qed.

Lemma pronounce_numbers_step (text language m rest : string) :
  String.prefix "zh" language = false ->
  match_number text = Some (m, rest) ->
  pronounce_numbers text language = (replace_func m ++ pronounce_numbers rest language)%string.
Proof.
  intros Hl Hm. unfold pronounce_numbers. rewrite Hl.
  assert (Hs := match_number_shorter _ _ _ Hm).
  destruct (String.length text) as [|k] eqn:Ek; [lia|].
  simpl. rewrite Hm. f_equal. apply sub_loop_fuel; lia.
Qed.

Lemma digit_word (x : ascii) :
  is_digit x = true ->
  exists w, obind (py_int (String x "")) number_to_words_en = Some w /\
            number_to_words_en (N.of_nat (nat_of_ascii x - 48)) = Some w.
Proof.
  intros Hx. unfold py_int. simpl. rewrite Hx. simpl.
  assert (Hlt : (N.of_nat (nat_of_ascii x - 48) < 10 ^ 12)%N).
  { unfold is_digit in Hx. apply andb_true_iff in Hx as [_ Hx].
    apply Nat.leb_le in Hx. lia. }
  destruct (number_to_words_en_some _ Hlt) as [w Hw].
  exists w. split; exact Hw.
Qed.

Lemma digit_words (d : string) :
  forallb is_digit (list_ascii_of_string d) = true ->
  exists dws,
    map_opt (fun c => obind (py_int (String c "")) number_to_words_en)
            (list_ascii_of_string d) = Some dws /\
    Forall2 (fun c w => number_to_words_en (N.of_nat (nat_of_ascii c - 48)) = Some w)
            (list_ascii_of_string d) dws.
Proof.
  induction d as [|x d IH]; simpl; intros Hd.
  - exists []. split; [reflexivity | constructor].
  - apply andb_true_iff in Hd as [Hx Hd].
    destruct (digit_word x Hx) as [w [Hw1 Hw2]]. rewrite Hw1. simpl.
    destruct (IH Hd) as [dws [H1 H2]]. rewrite H1. simpl.
    exists (w :: dws). split; [reflexivity | constructor; assumption].
Qed.

(** For a language not starting with [zh], [pronounce_numbers] spells out
    the numbers of an ASCII text: a run of at most 12 digits, not followed
    by a dot, becomes the English words of [int(run)]; a run followed by
    a dot and more digits becomes the words of its integer part,
    [point], and the words of each decimal digit in turn, separated by
    spaces; the rest of the text is processed the same way.  So no digit
    is left in a text whose digit runs are at most 12 digits long. *)
Theorem pronounce_numbers_spells_digits (language : string) :
  String.prefix "zh" language = false ->
  (forall d rest v,
     is_ascii (d ++ rest) = true -> d <> ""%string ->
     forallb is_digit (list_ascii_of_string d) = true -> String.length d <= 12 ->
     match rest with
     | String c _ => is_digit c = false /\ c <> "."%char
     | EmptyString => True
     end ->
     py_int d = Some v ->
     exists w, number_to_words_en v = Some w /\
       pronounce_numbers (d ++ rest) language = (w ++ pronounce_numbers rest language)%string) /\
  (forall d1 d2 rest v,
     is_ascii (d1 ++ "." ++ d2 ++ rest) = true -> d1 <> ""%string ->
     forallb is_digit (list_ascii_of_string d1) = true -> String.length d1 <= 12 ->
     forallb is_digit (list_ascii_of_string d2) = true ->
     match rest with String c _ => is_digit c = false | EmptyString => True end ->
     py_int d1 = Some v ->
     exists iw dws, number_to_words_en v = Some iw /\
       Forall2 (fun c w => number_to_words_en (N.of_nat (nat_of_ascii c - 48)) = Some w)
               (list_ascii_of_string d2) dws /\
       pronounce_numbers (d1 ++ "." ++ d2 ++ rest) language =
         (iw ++ " point " ++ String.concat " " dws ++ pronounce_numbers rest language)%string) /\
  (forall text, is_ascii text = true -> short_runs 0 text = true ->
     has_digit (pronounce_numbers text language) = false).
Proof.
  intros Hl. split; [|split].
  - intros d rest v _ Hne Hd Hlen Hr Hv.
    destruct (spelled_number d Hne Hd Hlen) as [w [Hw _]].
    rewrite Hv in Hw. simpl in Hw. exists w. split; [exact Hw|].
    assert (Hr' : match rest with String c _ => is_digit c = false | EmptyString => True end)
      by (destruct rest; [exact I | apply Hr]).
    rewrite (pronounce_numbers_step _ _ d rest Hl).
    + f_equal. unfold replace_func. rewrite (has_char_digits d Hd), Hv. simpl. rewrite Hw. reflexivity.
    + unfold match_number. rewrite (span_digits_app d rest Hd Hr').
      destruct d as [|c1 t1]; [congruence|].
      destruct rest as [|c r2]; [reflexivity|].
      destruct Hr as [_ Hdot]. destruct (Ascii.eqb_spec c "."); [congruence | reflexivity].
  - intros d1 d2 rest v _ Hne Hd1 Hlen Hd2 Hr Hv.
    destruct (spelled_number d1 Hne Hd1 Hlen) as [iw [Hw _]].
    rewrite Hv in Hw. simpl in Hw.
    destruct (digit_words d2 Hd2) as [dws [Hm Hf]].
    exists iw, dws. split; [exact Hw|]. split; [exact Hf|].
    rewrite (pronounce_numbers_step _ _ (d1 ++ "." ++ d2) rest Hl).
    + assert (Hrep : replace_func (d1 ++ "." ++ d2) =
                     (iw ++ " point " ++ String.concat " " dws)%string).
      { unfold replace_func.
        rewrite has_char_app, (has_char_digits d1 Hd1). simpl.
        assert (Hsp2 : split_char "." d2 = [d2]).
        { rewrite <- (str_append_nil_r d2) at 1.
          rewrite (split_char_app "." d2 "" "" [] (has_char_digits d2 Hd2) eq_refl).
          rewrite str_append_nil_r. reflexivity. }
        rewrite (split_char_app "." d1 (String "." d2) "" [d2] (has_char_digits d1 Hd1))
          by (simpl; rewrite Hsp2; reflexivity).
        rewrite str_append_nil_r, Hv. simpl. rewrite Hw. simpl. rewrite Hm. reflexivity. }
      rewrite Hrep, <- !str_append_assoc. reflexivity.
    + unfold match_number.
      rewrite (span_digits_app d1 ("." ++ d2 ++ rest) Hd1 eq_refl).
      destruct d1 as [|c1 t1]; [congruence|]. simpl.
      rewrite (span_digits_app d2 rest Hd2 Hr). reflexivity.
  - intros text _ Hs. unfold pronounce_numbers. rewrite Hl.
    apply sub_loop_clean; [lia | exact Hs].
Qed.

Lemma pronounce_numbers_spells_digits_witness :
  pronounce_numbers "42 apples" "en" = "forty-two apples"%string /\
  pronounce_numbers "3.14" "en" = "three point one four"%string /\
  has_digit (pronounce_numbers "pi is 3.14, not 42" "en") = false.
Proof.
  destruct (pronounce_numbers_spells_digits "en" eq_refl) as [H1 [H2 H3]].
  split; [|split].
  - destruct (H1 "42"%string " apples"%string 42%N eq_refl ltac:(discriminate)
                 eq_refl ltac:(simpl; lia) ltac:(split; [reflexivity | discriminate])
                 eq_refl) as [w [Hw E]].
    transitivity (w ++ pronounce_numbers " apples" "en")%string; [exact E|]. vm_compute in Hw. injection Hw as <-. reflexivity.
  - destruct (H2 "3"%string "14"%string ""%string 3%N eq_refl ltac:(discriminate)
                 eq_refl ltac:(simpl; lia) eq_refl I eq_refl) as [iw [dws [Hw [Hf E]]]].
    transitivity (iw ++ " point " ++ String.concat " " dws ++ pronounce_numbers "" "en")%string;
      [exact E|]. vm_compute in Hw. injection Hw as <-.
    inversion Hf as [|c1 w1 l1 l1' Hw1 Hf1]; subst.
    inversion Hf1 as [|c2 w2 l2 l2' Hw2 Hf2]; subst.
    inversion Hf2; subst.
    vm_compute in Hw1. injection Hw1 as <-.
    vm_compute in Hw2. injection Hw2 as <-. reflexivity.
  - apply H3; reflexivity.
Defined.

(** ** llm_handler.py *)

Import LLM.

(** [str.strip()] is idempotent *)
Lemma strip_idem (s : string) : strip (strip s) = strip s.
Proof.
  unfold strip at 1 2. rewrite list_ascii_of_string_of_list_ascii.
  unfold lstrip_bytes, rstrip_rev.
  set (X := drop_lead ws1 ws2 ws3 (list_ascii_of_string s)).
  set (M := drop_lead ws1 (fun a b => ws2 b a) (fun a b c => ws3 c b a) (rev X)).
  assert (HM : drop_lead ws1 ws2 ws3 (rev M) = rev M).
  { destruct (drop_lead_suffix ws1 (fun a b => ws2 b a) (fun a b c => ws3 c b a) (rev X))
      as [q Hq]. fold M in Hq.
    assert (HX : X = rev M ++ rev q)
      by (rewrite <- rev_app_distr, <- Hq, rev_involutive; reflexivity).
    apply (drop_lead_prefix _ _ _ (rev M) (rev q)). rewrite <- HX.
    apply drop_lead_idem. }
  rewrite HM, rev_involutive. unfold M at 1. rewrite drop_lead_idem.
  reflexivity.
Qed.

Lemma ends_with_empty (suf : string) :
  suf <> ""%string -> ends_with suf "" = false.
Proof. destruct suf; [congruence | reflexivity]. Qed.

Lemma complete_sentence_nonblank (text : string) :
  is_complete_sentence text = true -> strip text <> ""%string.
Proof.
  unfold is_complete_sentence. intros H E. rewrite E in H. discriminate.
Qed.

Lemma stream_loop_texts (cs : list chunk) (buf : string) (tcs : list tool_call) :
  exists ts, fst (stream_loop cs buf tcs) = map YText ts /\
             Forall (fun s => s <> ""%string /\ strip s = s) ts.
Proof.
  revert buf tcs. induction cs as [|[d|] cs IH]; intros buf tcs; simpl.
  - exists []. split; [reflexivity | constructor].
  - assert (Hys : exists ys buf',
              (if String.eqb (content d) "" then ([], buf)
               else if is_complete_sentence (buf ++ content d)%string
                    then ([YText (strip (buf ++ content d)%string)], ""%string)
                    else ([], (buf ++ content d)%string)) = (map YText ys, buf') /\
              Forall (fun s => s <> ""%string /\ strip s = s) ys).
    { destruct (String.eqb (content d) "").
      - exists [], buf. split; [reflexivity | constructor].
      - destruct (is_complete_sentence (buf ++ content d)%string) eqn:Hc.
        + exists [strip (buf ++ content d)%string], ""%string. split; [reflexivity|].
          constructor; [|constructor]. split.
          * apply complete_sentence_nonblank. exact Hc.
          * apply strip_idem.
        + exists [], (buf ++ content d)%string. split; [reflexivity | constructor]. }
    destruct Hys as [ys [buf' [Heq Hok]]]. rewrite Heq.
    destruct (add_tool_chunks tcs (tool_calls d)) as [tcs'|]; simpl.
    + destruct (IH buf' tcs') as [ts [Hts Hok']].
      destruct (stream_loop cs buf' tcs') as [ys2 r]. simpl in Hts |- *.
      exists (ys ++ ts). rewrite map_app, Hts.
      split; [reflexivity | apply Forall_app; split; assumption].
    + exists ys. split; [reflexivity | exact Hok].
  - exists []. split; [reflexivity | constructor].
Qed.

Lemma final_yields_shape (json_loads_ok : string -> bool) (buf : string)
    (tcs : list tool_call) :
  exists ts tools,
    final_yields json_loads_ok buf tcs = map YText ts ++ map YToolCall tools /\
    Forall (fun s => s <> ""%string /\ strip s = s) ts /\
    Forall (fun tc => tc_id tc <> ""%string /\ tc_name tc <> ""%string /\ tc_arguments tc <> ""%string /\
                      json_loads_ok (tc_arguments tc) = true) tools.
Proof.
  unfold final_yields.
  assert (Htools : exists tools,
    flat_map (fun tc =>
      if (negb (String.eqb (tc_id tc) "") && negb (String.eqb (tc_name tc) "") &&
          negb (String.eqb (tc_arguments tc) "") && json_loads_ok (tc_arguments tc))%bool
      then [YToolCall tc] else []) tcs = map YToolCall tools /\
    Forall (fun tc => tc_id tc <> ""%string /\ tc_name tc <> ""%string /\ tc_arguments tc <> ""%string /\
                      json_loads_ok (tc_arguments tc) = true) tools).
  { induction tcs as [|tc tcs [tools [Ht Hf]]]; simpl.
    - exists []. split; [reflexivity | constructor].
    - rewrite Ht.
      destruct (String.eqb_spec (tc_id tc) ""), (String.eqb_spec (tc_name tc) ""),
        (String.eqb_spec (tc_arguments tc) ""), (json_loads_ok (tc_arguments tc)) eqn:Hj;
        simpl; try (exists tools; split; [reflexivity | exact Hf]).
      exists (tc :: tools). split; [reflexivity|].
      constructor; [repeat split; assumption | exact Hf]. }
  destruct Htools as [tools [Ht Hf]]. rewrite Ht.
  destruct (String.eqb_spec (strip buf) "") as [E|E]; simpl.
  - exists [], tools. split; [reflexivity | split; [constructor | exact Hf]].
  - exists [strip buf], tools. split; [reflexivity|]. split; [|exact Hf].
    constructor; [split; [exact E | apply strip_idem] | constructor].
Qed.

Lemma get_stream_shape (json_loads_ok : string -> bool)
    (stream : option (list chunk)) :
  exists ts tools,
    get_llm_response_stream json_loads_ok stream =
      map YText ts ++ map YToolCall tools /\
    Forall (fun s => s <> ""%string /\ strip s = s) ts /\
    Forall (fun tc => tc_id tc <> ""%string /\ tc_name tc <> ""%string /\ tc_arguments tc <> ""%string /\
                      json_loads_ok (tc_arguments tc) = true) tools.
Proof.
  unfold get_llm_response_stream.
  destruct stream as [cs|].
  2:{ exists [], []. repeat split; constructor. }
  destruct (stream_loop_texts cs "" []) as [ts1 [H1 Hok1]].
  destruct (stream_loop cs "" []) as [ys [[buf tcs]|]]; simpl in H1; subst ys.
  - destruct (final_yields_shape json_loads_ok buf tcs) as [ts2 [tools [H2 [Hok2 Hf]]]].
    rewrite H2. exists (ts1 ++ ts2), tools.
    rewrite map_app, app_assoc. split; [reflexivity|].
    split; [apply Forall_app; split; assumption | exact Hf].
  - exists ts1, []. rewrite app_nil_r. repeat split; [exact Hok1 | constructor].
Qed.

(** [get_llm_response_stream] yields its texts first and its tool calls
    only after the last text; every text is non-blank and stripped, and
    every tool call has an id, a name and arguments that [json.loads]
    accepts, whatever the stream does (errors included). *)
Theorem llm_stream_texts_then_tool_calls (json_loads_ok : string -> bool)
    (stream : option (list chunk)) :
  exists ts tools,
    get_llm_response_stream json_loads_ok stream =
      map YText ts ++ map YToolCall tools /\
    Forall (fun s => s <> ""%string /\ strip s = s) ts /\
    Forall (fun tc => tc_id tc <> ""%string /\ tc_name tc <> ""%string /\
                      tc_arguments tc <> ""%string /\
                      json_loads_ok (tc_arguments tc) = true) tools.
Proof. exact (get_stream_shape json_loads_ok stream). Qed.

Lemma stream_loop_app (pre rest : list chunk) (buf : string) (tcs : list tool_call) :
  stream_loop (pre ++ rest) buf tcs =
  let '(ys, r) := stream_loop pre buf tcs in
  match r with
  | None => (ys, None)
  | Some (b, t) => let '(ys2, r2) := stream_loop rest b t in (ys ++ ys2, r2)
  end.
Proof.
  revert buf tcs. induction pre as [|[d|] pre IH]; intros buf tcs; simpl.
  - destruct (stream_loop rest buf tcs). reflexivity.
  - destruct (if String.eqb (content d) "" then _ else _) as [ys buf'].
    destruct (add_tool_chunks tcs (tool_calls d)) as [tcs'|]; [|reflexivity].
    rewrite IH.
    destruct (stream_loop pre buf' tcs') as [ys2 [[b t]|]]; simpl; [|reflexivity].
    destruct (stream_loop rest b t) as [ys3 r3]. rewrite app_assoc. reflexivity.
  - reflexivity.
Qed.

(** A tool-call chunk may only refer to an existing entry or to the next
    one: [add_tool_chunk] fails exactly when the index skips past the
    number of accumulated tool calls (or the chunk lacks [function]). *)
Theorem add_tool_chunk_fails (tcs : list tool_call) (c : tool_call_chunk) :
  add_tool_chunk tcs c = None <->
  (length tcs < tcc_index c \/ tcc_function c = None).
Proof.
  unfold add_tool_chunk.
  destruct (Nat.leb_spec (length tcs) (tcc_index c)) as [Hle|Hlt].
  - destruct (nth_error (tcs ++ [mkTC "" "" ""]) (tcc_index c)) as [tc|] eqn:E.
    + assert (Hl : tcc_index c < length (tcs ++ [mkTC "" "" ""])).
      { apply nth_error_Some. congruence. }
      rewrite length_app in Hl. simpl in Hl.
      destruct (tcc_function c) as [[n a]|]; split.
      * discriminate.
      * intros [H|H]; [lia | discriminate].
      * intros _. right. reflexivity.
      * intros _. reflexivity.
    + apply nth_error_None in E. rewrite length_app in E. simpl in E.
      split; [intros _; left; lia | reflexivity].
  - destruct (nth_error tcs (tcc_index c)) as [tc|] eqn:E.
    + destruct (tcc_function c) as [[n a]|]; split.
      * discriminate.
      * intros [H|H]; [lia | discriminate].
      * intros _. right. reflexivity.
      * intros _. reflexivity.
    + apply nth_error_None in E. lia.
Qed.

Lemma add_tool_chunk_skip (tcs : list tool_call) (c : tool_call_chunk) :
  length tcs < tcc_index c -> add_tool_chunk tcs c = None.
Proof.
  intros H. unfold add_tool_chunk.
  destruct (Nat.leb_spec (length tcs) (tcc_index c)) as [_|]; [|lia].
  assert (E : nth_error (tcs ++ [mkTC "" "" ""]) (tcc_index c) = None).
  { apply nth_error_None. rewrite length_app. simpl. lia. }
  rewrite E. reflexivity.
Qed.

(** When a content-less delta brings a tool-call chunk whose index skips
    past the tool calls accumulated so far, [get_llm_response_stream]
    ends with the sentences yielded before it: the buffered partial
    sentence and every accumulated tool call are dropped, and nothing of
    the rest of the stream is read. *)
Theorem llm_stream_index_skip_truncates (json_loads_ok : string -> bool)
    (pre post : list chunk) (d : delta) (c : tool_call_chunk)
    (cs : list tool_call_chunk) (ys : list yielded) (buf : string)
    (tcs : list tool_call) :
  stream_loop pre "" [] = (ys, Some (buf, tcs)) ->
  content d = ""%string -> tool_calls d = c :: cs -> length tcs < tcc_index c ->
  get_llm_response_stream json_loads_ok (Some (pre ++ Some d :: post)) = ys.
Proof.
  intros Hpre Hc Hd Hskip. unfold get_llm_response_stream.
  rewrite stream_loop_app, Hpre. simpl. rewrite Hc, Hd. simpl.
  assert (Hnone : add_tool_chunk tcs c = None)
    by (apply add_tool_chunk_skip; exact Hskip).
  rewrite Hnone. simpl. rewrite app_nil_r. reflexivity.
Qed.

Lemma llm_stream_index_skip_truncates_witness :
  get_llm_response_stream (fun _ => true)
    (Some ([Some (mkDelta "Hi." []); Some (mkDelta " And" [])] ++
           Some (mkDelta "" [mkTCC 1 "call_1" (Some ("send", "{}")%string)]) ::
           [Some (mkDelta " more." [])]))
  = [YText "Hi."].
Proof.
  apply (llm_stream_index_skip_truncates (fun _ => true) _ _ _
           (mkTCC 1 "call_1" (Some ("send", "{}")%string)) [] [YText "Hi."] " And" []).
  - reflexivity.
  - reflexivity.
  - reflexivity.
  - simpl. lia.
Defined.

Import Consumer.

Lemma consume_ordered (ts : list string) (tools : list tool_call) (k : nat)
    (played : list string) (full : string) :
  consume (fun _ => false) k (map YText ts ++ map YToolCall tools) played full =
  (played ++ ts, (full ++ String.concat "" ts)%string, hd_error tools).
Proof.
  revert k played full. induction ts as [|s ts IH]; intros k played full; simpl.
  - rewrite app_nil_r, str_append_nil_r.
    destruct tools; reflexivity.
  - rewrite IH, <- app_assoc. simpl. f_equal. f_equal.
    rewrite <- str_append_assoc. f_equal.
    destruct ts; simpl; [apply str_append_nil_r | reflexivity].
Qed.

(** Unless interrupted, [_trigger_large_llm] plays every text of the
    stream, in order, before it dispatches a tool call, which is the
    first accumulated complete one; [full_response_text] is the
    sentences glued with no separator. *)
Theorem trigger_plays_all_texts (json_loads_ok : string -> bool)
    (stream : option (list chunk)) :
  let ys := get_llm_response_stream json_loads_ok stream in
  consume (fun _ => false) 0 ys [] "" =
  (texts_of ys, String.concat "" (texts_of ys), first_tool_call ys).
Proof.
  simpl.
  destruct (get_stream_shape json_loads_ok stream) as [ts [tools [H _]]].
  rewrite H, consume_ordered. clear H.
  assert (Ht : texts_of (map YText ts ++ map YToolCall tools) = ts).
  { unfold texts_of. rewrite flat_map_app.
    induction ts as [|s ts IH]; simpl.
    - induction tools as [|tc tools IHt]; simpl; [reflexivity | exact IHt].
    - rewrite IH. reflexivity. }
  assert (Hf : first_tool_call (map YText ts ++ map YToolCall tools) = hd_error tools).
  { clear Ht. induction ts as [|s ts IH]; simpl; [destruct tools; reflexivity | exact IH]. }
  rewrite Ht, Hf. reflexivity.
Qed.
